(** * Prompt Architect: sampling engine and bounded-concurrency dispatcher

    A shallow embedding of
      - [src/utils/random.ts]        (mulberry32, toList),
      - [src/utils/randomPicker.ts]  (hash32, getCandidates, makeSectionRng,
                                      pickOneValue, makeBalancedPlan),
      - [src/components/BoxEditor.tsx] (the selection-reconciling effect),
      - [src/hooks/useAPI.ts]        (execute, fetchWithRetry, callOpenAI; the
                                      hook imported by PromptArchitect.tsx),
      - [src/PromptArchitect.tsx]    (buildOne, the planning loop of onRun,
                                      callLLM and its workers),
    followed by the properties established about them.

    Modelling conventions.
      - A JavaScript string is a [string] whose characters are read as UTF-16
        code units below 256 (the Latin-1 block).
      - A JavaScript number is a double. An integral one is the [Z] it
        equals; a sum of two is rounded to the nearest double ([Js.add],
        [Js.roundDouble]), which changes nothing as long as it stays within
        2^53 in magnitude. The 32-bit coercions of the bitwise operators are
        written out ([toInt32], [toUint32]). Numbers are finite: [NaN] and
        the infinities do not occur.
      - A double in [0, 1) is a dyadic rational [m # 2^d]: [k # 2^32] for a
        [mulberry32] output, [k # 2^53] for a [Math.random] output. Its
        product with an integer is rounded to a double before it is floored
        ([Js.floorMul]).
      - [undefined] (an array read out of range, or a hole of an array) is
        [None].
      - An object used as a dictionary is a finite map; what a JavaScript
        object inherits from its prototype is not part of it.
      - [Math.random] reads an entropy source that is threaded explicitly,
        and returns a multiple of 2^-53. *)

From Stdlib Require Import ZArith QArith Qround String Ascii List Lia Bool.
From stdpp Require Import base gmap strings list pretty.
Import ListNotations.

Local Open Scope string_scope.
Local Open Scope Z_scope.

(** ** JavaScript primitives *)

Module Js.

(** [ToInt32]: wrap into [-2^31, 2^31). *)
Definition toInt32 (z : Z) : Z := (z + 2147483648) mod 4294967296 - 2147483648.

(** [ToUint32]: wrap into [0, 2^32). *)
Definition toUint32 (z : Z) : Z := z mod 4294967296.

(** [a ^ b] *)
Definition xor (a b : Z) : Z := Z.lxor (toInt32 a) (toInt32 b).

(** [a | b] *)
Definition or (a b : Z) : Z := Z.lor (toInt32 a) (toInt32 b).

(** [a >>> n] *)
Definition ushr (a : Z) (n : Z) : Z := Z.shiftr (toUint32 a) n.

(** [Math.imul(a, b)] *)
Definition imul (a b : Z) : Z := toInt32 (toUint32 a * toUint32 b).

(** The double nearest to an integer: 53 significant bits are kept, and of
    two doubles equally near the one with the even significand is taken.
    [e] is the weight of the last bit kept. *)
Definition roundDouble (z : Z) : Z :=
  let a := Z.abs z in
  let e := Z.log2 a - 52 in
  if e <=? 0 then z
  else
    let q := a / 2 ^ e in
    let r := a mod 2 ^ e in
    let half := 2 ^ (e - 1) in
    let q' :=
      if r <? half then q
      else if half <? r then q + 1
      else if Z.even q then q else q + 1 in
    Z.sgn z * (q' * 2 ^ e).

(** [a + b] on integral numbers. *)
Definition add (a b : Z) : Z := roundDouble (a + b).

(** [a % b] on integers: the sign follows the dividend. *)
Definition rem (a b : Z) : Z := Z.rem a b.

(** [str.charCodeAt(i)] of one character. *)
Definition charCode (c : ascii) : Z := Z.of_nat (nat_of_ascii c).

(** White space and line terminators removed by [String.prototype.trim]. *)
Definition isWhiteSpace (c : ascii) : bool :=
  let n := nat_of_ascii c in
  ((n =? 9) || (n =? 10) || (n =? 11) || (n =? 12) || (n =? 13)
   || (n =? 32) || (n =? 160))%nat.

Fixpoint trimStart (s : string) : string :=
  match s with
  | EmptyString => EmptyString
  | String c r => if isWhiteSpace c then trimStart r else s
  end.

Fixpoint trimEnd (s : string) : string :=
  match s with
  | EmptyString => EmptyString
  | String c r =>
      match trimEnd r with
      | EmptyString => if isWhiteSpace c then EmptyString else String c EmptyString
      | r' => String c r'
      end
  end.

(** [s.trim()] *)
Definition trim (s : string) : string := trimEnd (trimStart s).

Definition lowerChar (c : ascii) : ascii :=
  let n := nat_of_ascii c in
  if ((65 <=? n) && (n <=? 90))%nat then ascii_of_nat (n + 32)
  else if ((192 <=? n) && (n <=? 222) && negb (n =? 215))%nat
       then ascii_of_nat (n + 32)
  else c.

(** [s.toLowerCase()] *)
Fixpoint toLowerCase (s : string) : string :=
  match s with
  | EmptyString => EmptyString
  | String c r => String (lowerChar c) (toLowerCase r)
  end.

(** [Boolean(s)] for a string: the empty string is the only falsy one. *)
Definition truthy (s : string) : bool :=
  match s with EmptyString => false | _ => true end.

(** The separator class of the regular expression [/[\n,]/]. *)
Definition isSeparator (c : ascii) : bool :=
  let n := nat_of_ascii c in ((n =? 10) || (n =? 44))%nat.

(** [text.split(/[\n,]/g)] *)
Fixpoint split (s : string) : list string :=
  match s with
  | EmptyString => [EmptyString]
  | String c r =>
      if isSeparator c then EmptyString :: split r
      else match split r with
           | [] => [String c EmptyString]
           | h :: t => String c h :: t
           end
  end.

(** [arr[i]] for an integral index: [undefined] out of range. *)
Definition index {A} (arr : list A) (i : Z) : option A :=
  if i <? 0 then None else arr !! Z.to_nat i.

(** [arr[i] = v] for an integral index, on an array whose entries may be
    [undefined]: a negative index sets a property that is no element, an
    index in range replaces the element, an index from the length on
    extends the array, leaving holes in between. *)
Definition assign {A} (arr : list (option A)) (i : Z) (v : option A)
  : list (option A) :=
  if i <? 0 then arr
  else if (Z.to_nat i <? length arr)%nat then <[Z.to_nat i := v]> arr
  else (arr ++ replicate (Z.to_nat i - length arr) None ++ [v])%list.

(** [[arr[i], arr[j]] = [arr[j], arr[i]]]: both reads come before the two
    assignments. *)
Definition swap {A} (arr : list (option A)) (i j : Z) : list (option A) :=
  let atJ := mjoin (index arr j) in
  let atI := mjoin (index arr i) in
  assign (assign arr i atJ) j atI.

(** [Math.floor(x * n)] for a double [x = m / 2^d] in [0, 1) and an
    integral [n]: the product [m * n / 2^d] is rounded to a double, which
    is to round [m * n] to 53 significant bits, and then floored. *)
Definition floorMul (x : Q) (n : Z) : Z :=
  roundDouble (Qnum x * n) / Z.pos (Qden x).

(** [x || d] for an integral number [x]: zero is the falsy integer. *)
Definition orElse (x d : Z) : Z := if x =? 0 then d else x.

(** What evaluating a piece of code that may throw ends in. *)
Inductive Completion (E A : Type) : Type :=
| Returned (a : A)
| Thrown (err : E).
Arguments Returned {E A} a.
Arguments Thrown {E A} err.

(** [Array(n).fill(v)] for an integral [n]; a negative length is a
    [RangeError]. *)
Definition arrayFill {A} (n : Z) (v : A) : Completion string (list A) :=
  if n <? 0 then Thrown "Invalid array length"
  else Returned (replicate (Z.to_nat n) v).

End Js.

(** ** The entropy behind [Math.random] *)

(** The [k]-th call of [Math.random] returns [source k mod 2^53 / 2^53]: a
    number in [0, 1), as ECMAScript requires, with 53 bits after the point,
    as the engines compute it. *)
Record Entropy := mkEntropy { source : nat -> N; drawn : nat }.

Definition unitInterval53 (m : N) : Q :=
  Z.of_N (m mod 9007199254740992) # 9007199254740992.

Definition Math_random (e : Entropy) : Q * Entropy :=
  (unitInterval53 (source e (drawn e)),
   {| source := source e; drawn := S (drawn e) |}).

(** ** src/utils/random.ts *)

(** The state [t] of a [mulberry32] closure is a JavaScript number: it grows
    by [0x6D2B79F5] at each call, as a double, and is wrapped only inside
    the bit operations. *)
Definition mulberry32_init (seed : Z) : Z := Js.ushr seed 0.

Definition mulberry32_numerator (t : Z) : Z :=
  let r := Js.imul (Js.xor t (Js.ushr t 15)) (Js.or 1 t) in
  let r := Js.xor r (r + Js.imul (Js.xor r (Js.ushr r 7)) (Js.or 61 r)) in
  Js.ushr (Js.xor r (Js.ushr r 14)) 0.

(** One call of the closure: the new state and the value returned. *)
Definition mulberry32_next (t : Z) : Q * Z :=
  let t := Js.add t 1831565813 in
  (mulberry32_numerator t # 4294967296, t).

(** The case-insensitive filter of [toList] and of
    [normalizeUniqueCaseInsensitive]: [seen] is the mutable [Set]. *)
Fixpoint filterUnseen (seen : gset string) (l : list string) : list string :=
  match l with
  | [] => []
  | s :: r =>
      let k := Js.toLowerCase s in
      if decide (k ∈ seen) then filterUnseen seen r
      else s :: filterUnseen ({[k]} ∪ seen) r
  end.

Definition toList (text : string) : list string :=
  if negb (Js.truthy text) then []
  else
    let raw := filter (fun s => Is_true (Js.truthy s)) (map Js.trim (Js.split text)) in
    filterUnseen ∅ raw.

(** ** src/utils/randomPicker.ts *)

Record CandidatePool := mkPool {
  label : string;
  listText : option string;
  listArray : option (list string);
  selections : option (list string);
  isRandomized : bool
}.

Definition hash32_step (h : Z) (c : ascii) : Z :=
  Js.imul (Js.xor h (Js.charCode c)) 16777619.

Definition hash32 (str : string) : Z :=
  Js.ushr (fold_left hash32_step (list_ascii_of_string str) (Js.ushr 2166136261 0)) 0.

Definition normalizeUniqueCaseInsensitive (arr : list string) : list string :=
  filterUnseen ∅ (filter (fun s => Is_true (Js.truthy s)) (map Js.trim arr)).

Definition getCandidates (pool : CandidatePool) : list string :=
  let fallback :=
    match listArray pool with
    | Some a => a
    | None => toList (default "" (listText pool))
    end in
  let base :=
    match selections pool with
    | Some sel => if (0 <? length sel)%nat then sel else fallback
    | None => fallback
    end in
  normalizeUniqueCaseInsensitive base.


(** A generator is either [Math.random] itself or a [mulberry32] closure
    with its captured state. *)
Inductive Rng : Type :=
| MathRandom
| Mulberry32 (t : Z).

(** [rng()] *)
Definition callRng (g : Rng) (e : Entropy) : Q * Rng * Entropy :=
  match g with
  | MathRandom => let '(x, e') := Math_random e in (x, MathRandom, e')
  | Mulberry32 t => let '(x, t') := mulberry32_next t in (x, Mulberry32 t', e)
  end.

Definition mulberry32 (seed : Z) : Rng := Mulberry32 (mulberry32_init seed).

Definition makeSectionRng (seedBase batchIndex : Z) (sectionId : string) : Rng :=
  if seedBase =? -1 then MathRandom
  else
    let s := Js.add (Js.add (Js.orElse seedBase 0) batchIndex) (hash32 sectionId) in
    mulberry32 s.

(** The first [n] values a generator returns. *)
Fixpoint draws (n : nat) (g : Rng) (e : Entropy) : list Q * Entropy :=
  match n with
  | O => ([], e)
  | S n' =>
      let '(x, g', e') := callRng g e in
      let '(xs, e'') := draws n' g' e' in
      (x :: xs, e'')
  end.

Definition pickOneValue (pool : CandidatePool) (seedBase batchIndex : Z)
    (sectionId : string) (e : Entropy) : option string * Entropy :=
  let candidates := getCandidates pool in
  if (length candidates =? 0)%nat then (Some "", e)
  else if isRandomized pool then
    let rng := makeSectionRng seedBase batchIndex sectionId in
    let '(x, _, e') := callRng rng e in
    let idx := Js.floorMul x (Z.of_nat (length candidates)) in
    (Js.index candidates idx, e')
  else
    let idx := Js.rem batchIndex (Z.of_nat (length candidates)) in
    (Js.index candidates idx, e).

(** The Fisher-Yates loop [for (let i = ...; i > 0; i--)], entered at [i],
    with the swap [[order[i], order[j]] = [order[j], order[i]]]. *)
Fixpoint shuffleFrom (i : nat) (order : list (option string)) (g : Rng)
    (e : Entropy) : list (option string) * Rng * Entropy :=
  match i with
  | O => (order, g, e)
  | S i' =>
      let '(x, g', e') := callRng g e in
      let j := Js.floorMul x (Z.of_nat i + 1) in
      shuffleFrom i' (Js.swap order (Z.of_nat i) j) g' e'
  end.

(** The closing loop [for (let b = 0; b < batchSize; b++)]. *)
Definition cycle (order : list (option string)) (batchSize : Z)
  : list (option string) :=
  map (fun b =>
         mjoin (Js.index order (Js.rem (Z.of_nat b) (Z.of_nat (length order)))))
      (seq 0 (Z.to_nat batchSize)).

Definition makeBalancedPlan (pool : CandidatePool) (seedBase : Z)
    (sectionId : string) (batchSize : Z) (e : Entropy)
  : Js.Completion string (list (option string)) * Entropy :=
  let candidates := getCandidates pool in
  if (length candidates =? 0)%nat then (Js.arrayFill batchSize (Some ""), e)
  else if (length candidates =? 1)%nat then
    (Js.arrayFill batchSize (Some (default "" (candidates !! 0%nat))), e)
  else
    let order := Some <$> candidates in
    let '(order, e) :=
      if isRandomized pool then
        let rng :=
          if seedBase =? -1 then MathRandom
          else mulberry32 (Js.add (Js.orElse seedBase 0) (hash32 sectionId)) in
        let '(order', _, e') := shuffleFrom (length order - 1) order rng e in
        (order', e')
      else (order, e) in
    (Js.Returned (cycle order batchSize), e).

(** ** src/components/BoxEditor.tsx *)

(** The effect that keeps the selections in step with the list text: the
    value handed to [setSelected], or the selections as they are when the
    effect leaves them alone. *)
Definition reconcileSelections (value : string) (selected : list string)
  : list string :=
  let canonical : gset string := list_to_set (map Js.toLowerCase (toList value)) in
  let normalizedSelected :=
    filter (fun s => Js.toLowerCase (Js.trim s) ∈ canonical) selected in
  if (length normalizedSelected =? length selected)%nat then selected
  else normalizedSelected.

(** ** src/PromptArchitect.tsx: building the payloads *)

Record SectionData := mkSection {
  id : string;
  title : string;
  list_ : string;
  sectionSelections : list string;
  sectionIsRandomized : bool
}.

Definition poolOfSection (section : SectionData) : CandidatePool :=
  {| label := title section;
     listText := Some (list_ section);
     listArray := None;
     selections := Some (sectionSelections section);
     isRandomized := sectionIsRandomized section |}.

Definition buildOne_section (batchIndex seedBase : Z)
    (acc : gmap string string * Entropy) (section : SectionData)
  : gmap string string * Entropy :=
  let '(payload, e) := acc in
  if negb (Js.truthy (Js.trim (title section))) then (payload, e)
  else
    let pool := poolOfSection section in
    let '(val, e') := pickOneValue pool seedBase batchIndex (id section) e in
    match Js.trim <$> val with
    | Some trimmedVal =>
        if Js.truthy trimmedVal then (<[title section := trimmedVal]> payload, e')
        else (payload, e')
    | None => (payload, e')
    end.

Definition buildOne (sections : list SectionData) (batchIndex seedBase : Z)
    (e : Entropy) : gmap string string * Entropy :=
  fold_left (buildOne_section batchIndex seedBase) sections (∅, e).

(** The loop [for (let i = 0; i < batchSize; i++) payloads.push(buildOne(i, s))],
    entered at [i] with [fuel] iterations to go. *)
Fixpoint buildPayloads (sections : list SectionData) (s : Z) (i : Z) (fuel : nat)
    (e : Entropy) : list (gmap string string) * Entropy :=
  match fuel with
  | O => ([], e)
  | S fuel' =>
      let '(p, e') := buildOne sections i s e in
      let '(ps, e'') := buildPayloads sections s (i + 1) fuel' e' in
      (p :: ps, e'')
  end.

(** The planning part of [onRun]: the key check, the batch size and the
    payload loop. *)
Definition onRun_payloads (apiKey : string) (sections : list SectionData)
    (seed batch : Z) (e : Entropy)
  : Js.Completion string (list (gmap string string)) * Entropy :=
  if negb (Js.truthy apiKey)
  then (Js.Thrown "Enter your OpenAI API key to generate prompts.", e)
  else
    let s := seed in
    let batchSize := Z.max 1 (Js.orElse batch 1) in
    let '(payloads, e') := buildPayloads sections s 0 (Z.to_nat batchSize) e in
    (Js.Returned payloads, e').

(** ** src/hooks/useAPI.ts *)

(** What [response.json()] finds: a body that does not parse, or a document
    whose [choices[0].message.content] is the given string, if any. *)
Inductive Body : Type :=
| BadJson
| Json (content : option string).

Record Response := mkResponse { status : Z; text : string; body : Body }.

(** [res.ok] *)
Definition ok (res : Response) : bool := (200 <=? status res) && (status res <=? 299).

(** How one [fetch] call settles: with a response, aborted by the 30 second
    timer, or rejected for another reason. *)
Inductive FetchResult : Type :=
| Responded (res : Response)
| Aborted
| Rejected (message : string).

(** The values thrown inside [fetchWithRetry]. *)
Inductive Err : Type :=
| HttpError (status : Z) (txt : string)
| AbortError
| OtherError (message : string)
| RequestTimeout
| RequestFailed.

(** What an observer of one [fetchWithRetry] call sees. *)
Inductive Event : Type :=
| Fetched (attempt : nat)
| Slept (delay : Z).

(** The [try] block of one iteration: it returns the response, falls
    through with [lastErr] assigned, or throws. *)
Inductive TryOutcome : Type :=
| TryReturn (res : Response)
| TryFallThrough (lastErr : Err)
| TryThrow (thrown : Err).

Definition tryBlock (r : FetchResult) : TryOutcome :=
  match r with
  | Responded res =>
      if ok res then TryReturn res
      else
        let txt := text res in
        if (status res =? 429) || ((status res >=? 500) && (status res <=? 599))
        then TryFallThrough (HttpError (status res) txt)
        else TryThrow (HttpError (status res) txt)
  | Aborted => TryThrow AbortError
  | Rejected message => TryThrow (OtherError message)
  end.

(** The [catch (e)] clause: the value [lastErr] is set to. *)
Definition catchClause (thrown : Err) : Err :=
  match thrown with
  | AbortError => RequestTimeout
  | e => e
  end.

(** The [while (attempt < tries)] loop, entered with [fuel] iterations to
    go; [fetch attempt] is how the fetch issued at that attempt settles.
    The product of [baseDelay] with a power of two is exact. *)
Fixpoint fetchLoop (fetch : nat -> FetchResult) (baseDelay : Z)
    (attempt : nat) (lastErr : option Err) (fuel : nat) (e : Entropy)
  : Js.Completion Err Response * list Event * Entropy :=
  match fuel with
  | O => (Js.Thrown (default RequestFailed lastErr), [], e)
  | S fuel' =>
      match tryBlock (fetch attempt) with
      | TryReturn res => (Js.Returned res, [Fetched attempt], e)
      | outcome =>
          let lastErr :=
            match outcome with
            | TryThrow thrown => catchClause thrown
            | TryFallThrough err => err
            | TryReturn _ => RequestFailed
            end in
          let attempt' := S attempt in
          let '(slept, e') :=
            match fuel' with
            | O => ([], e)
            | S _ =>
                let '(x, e') := Math_random e in
                let jitter := Js.floorMul x 200 in
                let delay :=
                  Js.add (baseDelay * 2 ^ (Z.of_nat attempt' - 1)) jitter in
                ([Slept delay], e')
            end in
          let '(r, evs, e'') :=
            fetchLoop fetch baseDelay attempt' (Some lastErr) fuel' e' in
          (r, Fetched attempt :: slept ++ evs, e'')
      end
  end.

Definition fetchWithRetry (fetch : nat -> FetchResult) (baseDelay tries : Z)
    (e : Entropy) : Js.Completion Err Response * list Event * Entropy :=
  fetchLoop fetch baseDelay 0 None (Z.to_nat tries) e.

(** The function handed to [execute] by [callOpenAI]. *)
Definition apiCall (fetch : nat -> FetchResult) (maxRetries baseDelay : Z)
    (e : Entropy) : Js.Completion Err string * Entropy :=
  let '(r, _, e') := fetchWithRetry fetch baseDelay maxRetries e in
  match r with
  | Js.Thrown err => (Js.Thrown err, e')
  | Js.Returned response =>
      match body response with
      | BadJson => (Js.Thrown (OtherError "SyntaxError"), e')
      | Json content => (Js.Returned (default "" (Js.trim <$> content)), e')
      end
  end.

(** [execute]: how the promise it returns settles. The [catch] turns every
    failure of the call into the value [null], here [None]. *)
Definition execute {A} (call : Entropy -> Js.Completion Err A * Entropy)
    (e : Entropy) : Js.Completion Err (option A) * Entropy :=
  let '(r, e') := call e in
  match r with
  | Js.Returned result => (Js.Returned (Some result), e')
  | Js.Thrown _ => (Js.Returned None, e')
  end.

(** [callOpenAI] with the options destructured to [maxRetries] and
    [baseDelay] (3 and 500 when absent). *)
Definition callOpenAI (fetch : nat -> FetchResult) (maxRetries baseDelay : Z)
    (e : Entropy) : Js.Completion Err (option string) * Entropy :=
  execute (apiCall fetch maxRetries baseDelay) e.

(** ** src/PromptArchitect.tsx: the dispatcher *)

Record Progress := mkProgress { total : nat; done_ : nat; ok_ : nat; fail : nat }.

(** Where a [worker()] activation stands: about to test the loop
    condition, suspended on the call for [myIndex], or returned. *)
Inductive Worker : Type :=
| AtLoopHead
| Awaiting (myIndex : nat)
| Finished.

Record Dispatch := mkDispatch {
  index : nat;
  results : list string;
  progress : Progress;
  workers : list Worker;
  entropy : Entropy
}.

(** How far the promise returned by [callLLM] has come after the turns of
    [schedule], with the progress state on display at that moment; [shown]
    is the progress state on display when [callLLM] is entered. *)
Inductive Promise (A : Type) : Type :=
| Pending
| Fulfilled (a : A)
| Failed (message : string).
Arguments Pending {A}.
Arguments Fulfilled {A} a.
Arguments Failed {A} message.

Section Dispatcher.

Variables Payload Messages : Type.
Variable buildLLMMessages : Payload -> Messages.
(** How the fetch issued for the given messages, for job [i], at the given
    attempt settles. *)
Variable network : Messages -> nat -> nat -> FetchResult.

(** [result || ""] *)
Definition orEmpty (result : option string) : string := default "" result.

(** One turn of worker [w]: either the stretch from the loop test to the
    [await], or the stretch from the settled call back to the loop test. *)
Definition stepWorker (queue : list Messages) (w : nat) (s : Dispatch)
  : option Dispatch :=
  match workers s !! w with
  | Some AtLoopHead =>
      if (index s <? length queue)%nat then
        let myIndex := index s in
        Some {| index := S (index s); results := results s;
                progress := progress s;
                workers := <[w := Awaiting myIndex]> (workers s);
                entropy := entropy s |}
      else
        Some {| index := index s; results := results s;
                progress := progress s;
                workers := <[w := Finished]> (workers s);
                entropy := entropy s |}
  | Some (Awaiting myIndex) =>
      match queue !! myIndex with
      | None => None
      | Some messages =>
          let '(settled, e') :=
            callOpenAI (network messages myIndex) 3 500 (entropy s) in
          let p := progress s in
          match settled with
          | Js.Returned result =>
              Some {| index := index s;
                      results := <[myIndex := orEmpty result]> (results s);
                      progress := {| total := total p; done_ := S (done_ p);
                                     ok_ := S (ok_ p); fail := fail p |};
                      workers := <[w := AtLoopHead]> (workers s);
                      entropy := e' |}
          | Js.Thrown _ =>
              Some {| index := index s;
                      results := <[myIndex := ""]> (results s);
                      progress := {| total := total p; done_ := S (done_ p);
                                     ok_ := ok_ p; fail := S (fail p) |};
                      workers := <[w := AtLoopHead]> (workers s);
                      entropy := e' |}
          end
      end
  | Some Finished | None => None
  end.

(** The number of workers started: [Math.max(1, Math.min(Number(maxParallel) || 1, 10))]. *)
Definition workerCount (maxParallel : Z) : nat :=
  Z.to_nat (Z.max 1 (Z.min (Js.orElse maxParallel 1) 10)).

(** The state in which the workers are started. *)
Definition callLLM_start (queue : list Messages) (maxParallel : Z) (e : Entropy)
  : Dispatch :=
  {| index := 0;
     results := replicate (length queue) "";
     progress := {| total := length queue; done_ := 0; ok_ := 0; fail := 0 |};
     workers := replicate (workerCount maxParallel) AtLoopHead;
     entropy := e |}.

(** The event loop resumes the workers in the order [schedule] gives; a
    turn offered to a worker that has returned, or to none, changes
    nothing. *)
Fixpoint run (queue : list Messages) (schedule : list nat) (s : Dispatch)
  : Dispatch :=
  match schedule with
  | [] => s
  | w :: schedule' => run queue schedule' (default s (stepWorker queue w s))
  end.

Definition isFinished (w : Worker) : bool :=
  match w with Finished => true | _ => false end.

Definition isAwaiting (w : Worker) : bool :=
  match w with Awaiting _ => true | _ => false end.

(** [Promise.all] over the workers has resolved. *)
Definition allFinished (s : Dispatch) : bool := forallb isFinished (workers s).

Definition callLLM (apiKey : string) (payloads : list Payload) (maxParallel : Z)
    (shown : Progress) (schedule : list nat) (e : Entropy)
  : Promise (list string) * Progress :=
  if negb (Js.truthy apiKey)
  then (Failed "No API key set. Enter your OpenAI API key to use Send to GPT.",
        shown)
  else
    let queue := map buildLLMMessages payloads in
    let s := run queue schedule (callLLM_start queue maxParallel e) in
    (if allFinished s then Fulfilled (results s) else Pending, progress s).

End Dispatcher.

Arguments stepWorker {Messages} network queue w s.
Arguments run {Messages} network queue schedule s.
Arguments callLLM_start {Messages} queue maxParallel e.
Arguments callLLM {Payload Messages} buildLLMMessages network apiKey payloads maxParallel shown schedule e.


(** ** The words of the specification, for comparison *)

(** "Deduplicated case-insensitively (preserving order)": an entry stays
    when no earlier entry has the same lowercase form. *)
Fixpoint spec_dedupCaseInsensitive (l : list string) : list string :=
  match l with
  | [] => []
  | s :: r =>
      s :: filter (fun t => Js.toLowerCase t <> Js.toLowerCase s)
                  (spec_dedupCaseInsensitive r)
  end.

(** "A 32-bit FNV-1a-style hash over the identity string: initialize to the
    FNV offset basis, for each character XOR the 32-bit accumulator with the
    character code then multiply by the FNV prime (mod 2^32); final result
    unsigned." The accumulator is a natural number below 2^32. *)
Definition spec_stableHash (identity : string) : Z :=
  fold_left
    (fun acc c => (Z.lxor acc (Z.of_nat (nat_of_ascii c)) * 16777619) mod 2 ^ 32)
    (list_ascii_of_string identity) 2166136261.

(** "Combines runSeed + batchIndex + stableHash(parameterIdentity) into a
    32-bit unsigned integer state": the sum of the three integers, modulo
    2^32. *)
Definition spec_seedState (runSeed batchIndex : Z) (identity : string) : Z :=
  (runSeed + batchIndex + spec_stableHash identity) mod 2 ^ 32.

(** "Output is derived via two xorshift/multiply mixing rounds producing a
    32-bit value": the mixing of the mulberry32 algorithm, on a natural
    number [z] below 2^32, every product and sum taken modulo 2^32. *)
Definition spec_mix (z : Z) : Z :=
  let z := (Z.lxor z (Z.shiftr z 15) * Z.lor z 1) mod 2 ^ 32 in
  let z := Z.lxor z ((z + Z.lxor z (Z.shiftr z 7) * Z.lor z 61) mod 2 ^ 32) in
  Z.lxor z (Z.shiftr z 14).

(** "State advances by a fixed odd increment each call; output is ...
    normalized by dividing by 2^32": the next [n] outputs of the mulberry32
    algorithm from a 32-bit state. *)
Fixpoint spec_generator (n : nat) (state : Z) : list Q :=
  match n with
  | O => []
  | S n' =>
      let state := (state + 1831565813) mod 2 ^ 32 in
      (spec_mix state # 4294967296) :: spec_generator n' state
  end.

(** ** Definitions used in the statements and proofs *)

(** The values a [mulberry32] closure in state [t] returns on its next [n]
    calls. *)
Fixpoint mulberry32_draws (n : nat) (t : Z) : list Q :=
  match n with
  | O => []
  | S n' => let '(x, t') := mulberry32_next t in x :: mulberry32_draws n' t'
  end.

(** A string that does not begin with white space. *)
Definition headOk (s : string) : Prop :=
  match s with
  | EmptyString => True
  | String c _ => Js.isWhiteSpace c = false
  end.

(** The pools of the examples: one selection of a three-token list, the
    same selection with a leading blank, and a selection that is no token
    of the list. *)
Definition pinnedPool : CandidatePool :=
  mkPool "Lens" (Some "x,y,z") None (Some ["y"]) false.

Definition paddedPool : CandidatePool :=
  mkPool "Lens" (Some "x,y,z") None (Some [" y"]) false.

Definition ghostPool : CandidatePool :=
  mkPool "Lens" (Some "x,y,z") None (Some ["q"]) false.

(** A section after the effect of the editor has run on its selections. *)
Definition reconciled (section : SectionData) : SectionData :=
  mkSection (id section) (title section) (list_ section)
    (reconcileSelections (list_ section) (sectionSelections section))
    (sectionIsRandomized section).

(** A section with one stale selection and one that only differs from a
    token in case and padding. *)
Definition staleSection : SectionData :=
  mkSection "s1" "Lens" "x,y,z" ["q"; "Y "] false.

(** A double in [0, 1) with at most 53 bits after the point, read off its
    numerator and denominator. *)
Definition unitQ (x : Q) : Prop :=
  0 <= Qnum x < Z.pos (Qden x) /\ Z.pos (Qden x) <= 9007199254740992.

(** Two unrelated entropy sources. *)
Definition entropyA : Entropy := mkEntropy (fun _ => 12345%N) 0.
Definition entropyB : Entropy := mkEntropy (fun k => (N.of_nat k * 7919)%N) 3.

(** A cycling pool and a randomized pool, three candidates each. *)
Definition threePool : CandidatePool :=
  mkPool "Lens" (Some "35mm, 50mm, 85mm") None None false.

Definition randomPool : CandidatePool :=
  mkPool "Sky" (Some "blue, grey, red") None None true.

(** One titled section and one whose title is blank. *)
Definition demoSections : list SectionData :=
  [mkSection "s1" "Lens" "35mm, 50mm, 85mm" [] false;
   mkSection "s2" "  " "ignored" [] false].

(** A server that rejects every request as malformed. *)
Definition alwaysBadRequest (attempt : nat) : FetchResult :=
  Responded (mkResponse 400 "bad request" BadJson).

(** A fixed entropy source, to name the completion of a call, which does
    not depend on it. *)
Definition entropyZero : Entropy := mkEntropy (fun _ => 0%N) 0.

(** What a call leaves in the result slot of its job. *)
Definition slotValue (settled : Js.Completion Err (option string)) : string :=
  match settled with
  | Js.Returned result => default "" result
  | Js.Thrown _ => ""
  end.

(** The sum of [f] over the workers. *)
Fixpoint tally (f : Worker -> nat) (ws : list Worker) : nat :=
  match ws with
  | [] => 0%nat
  | w :: r => (f w + tally f r)%nat
  end.

(** Counts the workers suspended on a call. *)
Definition awaitingOne (w : Worker) : nat := if isAwaiting w then 1%nat else 0%nat.

(** The turns a worker still takes without claiming a further job. *)
Definition turnsLeft (w : Worker) : nat :=
  match w with
  | AtLoopHead => 1%nat
  | Awaiting _ => 2%nat
  | Finished => 0%nat
  end.

Section DispatcherState.

Local Open Scope nat_scope.

Context {Messages : Type}.
Variable network : Messages -> nat -> nat -> FetchResult.
Variable queue : list Messages.

(** The value the call for job [i], with messages [m], leaves in slot [i]. *)
Definition settledValue (m : Messages) (i : nat) : string :=
  slotValue (callOpenAI (network m i) 3 500 entropyZero).1.

(** A bound on the turns that can still be taken from [s]. *)
Definition turnsBound (s : Dispatch) : nat :=
  3 * (length queue - index s) + tally turnsLeft (workers s).

(** What holds of the dispatcher between any two turns. *)
Record Inv (s : Dispatch) : Prop := mkInv {
  inv_results : length (results s) = length queue;
  inv_index : index s <= length queue;
  inv_workers : workers s <> [];
  inv_claimed : forall w i, workers s !! w = Some (Awaiting i) -> i < index s;
  inv_owner : forall w1 w2 i,
      workers s !! w1 = Some (Awaiting i) ->
      workers s !! w2 = Some (Awaiting i) -> w1 = w2;
  inv_slot : forall i m,
      i < index s -> queue !! i = Some m ->
      (forall w, workers s !! w <> Some (Awaiting i)) ->
      results s !! i = Some (settledValue m i);
  inv_finished : forall w, workers s !! w = Some Finished -> index s = length queue;
  inv_done : done_ (progress s) + tally awaitingOne (workers s) = index s;
  inv_ok : ok_ (progress s) + fail (progress s) = done_ (progress s);
  inv_total : total (progress s) = length queue
}.

End DispatcherState.

(** A server that answers job [i] with 429 on its first [i] attempts and
    then with a completion naming the payload. *)
Definition demoNetwork (messages : nat) (i attempt : nat) : FetchResult :=
  if (attempt <? i)%nat then Responded (mkResponse 429 "slow down" BadJson)
  else Responded (mkResponse 200 ""
         (Json (Some (" r" ++ String (ascii_of_nat (48 + messages)) " ")))).

(** Three workers claim the jobs 0, 1, 2; the calls settle in the order 2,
    1, 0; then every worker finds the queue exhausted. *)
Definition lastFirstSchedule : list nat :=
  [0; 1; 2; 2; 1; 0; 0; 1; 2; 3; 4; 5; 6; 7; 8; 9]%nat.

(** ** Further code of the same files *)

(** [pickOne] of src/utils/random.ts, at element type [string]. *)
Definition pickOne (arr : list string) (g : Rng) (e : Entropy)
  : option string * Rng * Entropy :=
  if (length arr =? 0)%nat then (Some "", g, e)
  else
    let '(x, g', e') := callRng g e in
    let i := Js.floorMul x (Z.of_nat (length arr)) in
    (Js.index arr i, g', e').

(** Every character of [s] satisfies [P]. *)
Fixpoint allChars (P : ascii -> bool) (s : string) : bool :=
  match s with
  | EmptyString => true
  | String c r => P c && allChars P r
  end.

(** The state of a [mulberry32] closure after one more call. *)
Definition mulberry32_advance (t : Z) : Z := (mulberry32_next t).2.

(** The attempts at which a request was issued, and the sleeps, in the
    order an observer saw them. *)
Definition fetchesOf (events : list Event) : list nat :=
  omap (fun ev => match ev with Fetched a => Some a | Slept _ => None end) events.

Definition delaysOf (events : list Event) : list Z :=
  omap (fun ev => match ev with Slept d => Some d | Fetched _ => None end) events.

(** What an observer sees when the attempts from [attempt] on are each
    followed by a sleep, of the lengths given, and by the next attempt. *)
Fixpoint timeline (attempt : nat) (delays : list Z) : list Event :=
  match delays with
  | [] => [Fetched attempt]
  | delay :: later => Fetched attempt :: Slept delay :: timeline (S attempt) later
  end.

(** The error an attempt that did not return leaves in [lastErr]. *)
Definition failureOf (r : FetchResult) : Err :=
  match tryBlock r with
  | TryThrow thrown => catchClause thrown
  | TryFallThrough err => err
  | TryReturn _ => RequestFailed
  end.

(** The number of calls in flight. *)
Definition inFlight (s : Dispatch) : nat := tally awaitingOne (workers s).

(** Job [i] has been claimed and its call has settled. *)
Definition settled (i : nat) (s : Dispatch) : Prop :=
  (i < index s)%nat /\ forall w, workers s !! w <> Some (Awaiting i).

(** ** src/components/BoxEditor.tsx: the handlers *)

(** [selected.includes(opt)] *)
Definition includes (selected : list string) (opt : string) : bool :=
  bool_decide (opt ∈ selected).

(** [toggle(opt)]: the selections and the random flag after the click. A
    component that is not set keeps the value of the props. *)
Definition toggle (selected : list string) (randomOn : bool) (opt : string)
  : list string * bool :=
  let has := includes selected opt in
  if has then (filter (fun o => o <> opt) selected, randomOn)
  else ((selected ++ [opt])%list, false).

(** [toggleRandom()] *)
Definition toggleRandom (selected : list string) (randomOn : bool)
  : list string * bool :=
  let willBeOn := negb randomOn in
  if willBeOn then ([], willBeOn) else (selected, willBeOn).

(** ** src/components/EditableSectionTitle.tsx and the section handlers of
    src/PromptArchitect.tsx *)

(** [prev.map(s => s.id === id ? f(s) : s)] *)
Definition updateSection (sectionId : string) (f : SectionData -> SectionData)
    (sections : list SectionData) : list SectionData :=
  map (fun s => if decide (id s = sectionId) then f s else s) sections.

(** [handleAddSection]; [uuid] is what [crypto.randomUUID()] returns. *)
Definition handleAddSection (uuid : string) (sections : list SectionData)
  : list SectionData :=
  let newSection := mkSection uuid "New Section" "" [] true in
  (sections ++ [newSection])%list.

Definition handleRemoveSection (idToRemove : string) (sections : list SectionData)
  : list SectionData :=
  filter (fun section => id section <> idToRemove) sections.

Definition handleSectionTitleChange (sectionId newTitle : string)
    (sections : list SectionData) : list SectionData :=
  let trimmedTitle := Js.trim newTitle in
  if negb (Js.truthy trimmedTitle) then sections
  else
    updateSection sectionId
      (fun s => mkSection (id s) trimmedTitle (list_ s) (sectionSelections s)
                  (sectionIsRandomized s))
      sections.

Definition handleSectionListChange (sectionId newList : string)
    (sections : list SectionData) : list SectionData :=
  updateSection sectionId
    (fun s => mkSection (id s) (title s) newList (sectionSelections s)
                (sectionIsRandomized s))
    sections.

Definition handleSectionSelectionsChange (sectionId : string)
    (newSelections : list string) (sections : list SectionData)
  : list SectionData :=
  updateSection sectionId
    (fun s => mkSection (id s) (title s) (list_ s) newSelections
                (sectionIsRandomized s))
    sections.

Definition handleSectionRandomToggle (sectionId : string) (isRandomized : bool)
    (sections : list SectionData) : list SectionData :=
  updateSection sectionId
    (fun s => mkSection (id s) (title s) (list_ s) (sectionSelections s) isRandomized)
    sections.

(** [handleSave] of the title editor, with [onTitleChange] bound to
    [handleSectionTitleChange] as [renderSection] binds it. *)
Definition handleSave (section title editValue : string)
    (sections : list SectionData) : list SectionData :=
  let trimmedValue := Js.trim editValue in
  if Js.truthy trimmedValue && negb (bool_decide (trimmedValue = title))
  then handleSectionTitleChange section trimmedValue sections
  else sections.

(** [arr.findIndex(p)]: the first index at which [p] holds, or -1. *)
Fixpoint findIndex {A} (p : A -> bool) (arr : list A) : Z :=
  match arr with
  | [] => -1
  | x :: r =>
      if p x then 0
      else let i := findIndex p r in if i <? 0 then -1 else i + 1
  end.

(** [moveSectionUp] and [moveSectionDown]: the sections after the call,
    that is the array handed to [setSections], or the sections as they were
    when the handler does not call it; [None] is an entry that is
    [undefined]. *)
Definition moveSectionUp (sectionId : string) (sections : list SectionData)
  : list (option SectionData) :=
  let currentIndex := findIndex (fun s => bool_decide (id s = sectionId)) sections in
  if 0 <? currentIndex then
    let newSections := Some <$> sections in
    Js.swap newSections (currentIndex - 1) currentIndex
  else Some <$> sections.

Definition moveSectionDown (sectionId : string) (sections : list SectionData)
  : list (option SectionData) :=
  let currentIndex := findIndex (fun s => bool_decide (id s = sectionId)) sections in
  if currentIndex <? Z.of_nat (length sections) - 1 then
    let newSections := Some <$> sections in
    Js.swap newSections currentIndex (currentIndex + 1)
  else Some <$> sections.

(** ** src/services/presetService.ts: the sections of a preset in the new
    format *)

(** A section as it comes out of a preset document: a field may be
    missing ([None]); a field that is there has the type the interface
    gives it, except [selections], which is [None] also when it is no
    array, and [isRandomized], which is read for its truth value. *)
Record RawSection := mkRawSection {
  rawId : option string;
  rawTitle : option string;
  rawList : option string;
  rawSelections : option (list string);
  rawIsRandomized : bool
}.

(** [s || d] for a string that may be missing. *)
Definition orString (s : option string) (d : string) : string :=
  match s with
  | Some v => if Js.truthy v then v else d
  | None => d
  end.

(** The mapper of the first branch of [resolvePresetSections]. *)
Definition resolveSection (index : nat) (section : RawSection) : SectionData :=
  mkSection
    (orString (rawId section) ("section-" ++ pretty (index + 1)%nat))
    (orString (Js.trim <$> rawTitle section) ("Section " ++ pretty (index + 1)%nat))
    (orString (rawList section) "")
    (default [] (rawSelections section))
    (rawIsRandomized section).

(** [resolvePresetSections]. [sections] is [preset.sections] when that is
    an array. The migration of the old format, taken when it is no array or
    an empty one, is not modelled: [migrated] stands for what it returns. *)
Definition resolvePresetSections (sections : option (list RawSection))
    (migrated : list SectionData) : list SectionData :=
  match sections with
  | Some (section :: rest) => imap resolveSection (section :: rest)
  | _ => migrated
  end.

(** A section as [JSON.stringify] writes it and [JSON.parse] reads it
    back: every field present. *)
Definition rawOfSection (section : SectionData) : RawSection :=
  mkRawSection (Some (id section)) (Some (title section)) (Some (list_ section))
    (Some (sectionSelections section)) (sectionIsRandomized section).

(** ** src/hooks/useLocalStorage.ts *)

Section LocalStorage.

Variable T : Type.
(** [serialize] and [deserialize] are the options of the hook; [None] is a
    call that throws. *)
Variable serialize : T -> option string.
Variable deserialize : string -> option T.
(** Whether the storage takes an item under a key; [setItem] throws when
    it does not (a full storage). *)
Variable accepts : string -> string -> bool.

(** The initial state of the hook: what the initialiser of [useState]
    returns on mount. *)
Definition mountValue (key : string) (initialValue : T)
    (storage : gmap string string) : T :=
  match storage !! key with
  | Some item =>
      if Js.truthy item then default initialValue (deserialize item)
      else initialValue
  | None => initialValue
  end.

(** [setValue] with a value or an updater: the new state and the storage.
    The state is set before the storage is written, so a [serialize] or a
    [setItem] that throws leaves the storage behind; the [catch] only
    warns. *)
Definition setValue (key : string) (value : T + (T -> T)) (storedValue : T)
    (storage : gmap string string) : T * gmap string string :=
  let valueToStore :=
    match value with
    | inl v => v
    | inr f => f storedValue
    end in
  match serialize valueToStore with
  | Some item =>
      if accepts key item then (valueToStore, <[key := item]> storage)
      else (valueToStore, storage)
  | None => (valueToStore, storage)
  end.

End LocalStorage.

Arguments mountValue {T} deserialize key initialValue storage.
Arguments setValue {T} serialize accepts key value storedValue storage.

(** ** Editing a preset *)

(** The operations of the editor that keep the sections an array of
    sections. *)
Inductive EditAction : Type :=
| AddSection (uuid : string)
| RemoveSection (idToRemove : string)
| TitleChange (sectionId newTitle : string)
| SaveTitle (sectionId title editValue : string)
| ListChange (sectionId newList : string)
| SelectionsChange (sectionId : string) (newSelections : list string)
| RandomToggle (sectionId : string) (isRandomized : bool).

Definition applyAction (action : EditAction) (sections : list SectionData)
  : list SectionData :=
  match action with
  | AddSection uuid => handleAddSection uuid sections
  | RemoveSection idToRemove => handleRemoveSection idToRemove sections
  | TitleChange sectionId newTitle => handleSectionTitleChange sectionId newTitle sections
  | SaveTitle sectionId title editValue => handleSave sectionId title editValue sections
  | ListChange sectionId newList => handleSectionListChange sectionId newList sections
  | SelectionsChange sectionId newSelections =>
      handleSectionSelectionsChange sectionId newSelections sections
  | RandomToggle sectionId isRandomized =>
      handleSectionRandomToggle sectionId isRandomized sections
  end.

(** A title that [buildOne] accepts and that the editor would store as it
    is. *)
Definition titleOk (section : SectionData) : Prop :=
  title section <> "" /\ Js.trim (title section) = title section.

(** * Properties *)

(** ** Strings *)

Lemma truthy_nonempty s : Js.truthy s = true <-> s <> "".
Proof. destruct s; simpl; split; congruence. Qed.

Lemma trimStart_headOk s : headOk (Js.trimStart s).
Proof.
  induction s as [|c r IH]; simpl; [exact I|].
  destruct (Js.isWhiteSpace c) eqn:Hc; [exact IH|exact Hc].
Qed.

Lemma trimStart_id s : headOk s -> Js.trimStart s = s.
Proof. destruct s as [|c r]; simpl; [reflexivity|]. intros ->. reflexivity. Qed.

Lemma trimEnd_headOk s : headOk s -> headOk (Js.trimEnd s).
Proof.
  destruct s as [|c r]; simpl; [trivial|]. intros Hc.
  destruct (Js.trimEnd r); [rewrite Hc|]; simpl; exact Hc.
Qed.

Lemma trimEnd_idem s : Js.trimEnd (Js.trimEnd s) = Js.trimEnd s.
Proof.
  induction s as [|c r IH]; simpl; [reflexivity|].
  destruct (Js.trimEnd r) as [|c' r'] eqn:Hr.
  - destruct (Js.isWhiteSpace c) eqn:Hc; simpl; rewrite ?Hc; reflexivity.
  - change (Js.trimEnd (String c (String c' r'))) with
      (match Js.trimEnd (String c' r') with
       | EmptyString =>
           if Js.isWhiteSpace c then EmptyString else String c EmptyString
       | r'' => String c r''
       end).
    rewrite IH. reflexivity.
Qed.

Lemma trim_idem s : Js.trim (Js.trim s) = Js.trim s.
Proof.
  unfold Js.trim.
  rewrite (trimStart_id (Js.trimEnd (Js.trimStart s))).
  - apply trimEnd_idem.
  - apply trimEnd_headOk, trimStart_headOk.
Qed.

(** ** The case-insensitive filter *)

Lemma filterUnseen_subset seen l x : x ∈ filterUnseen seen l -> x ∈ l.
Proof.
  revert seen; induction l as [|s r IH]; simpl; intros seen; [trivial|].
  destruct (decide (Js.toLowerCase s ∈ seen)).
  - intros H. right. eapply IH, H.
  - intros [->|H]%elem_of_cons; [left|right; eapply IH, H].
Qed.

Lemma filterUnseen_spec seen l :
  filterUnseen seen l =
  filter (fun t => Js.toLowerCase t ∉ seen) (spec_dedupCaseInsensitive l).
Proof.
  revert seen; induction l as [|s r IH]; simpl; intros seen; [reflexivity|].
  destruct (decide (Js.toLowerCase s ∈ seen)) as [Hin|Hin].
  - rewrite filter_cons_False by (intros H; exact (H Hin)).
    rewrite IH, list_filter_filter. apply list_filter_iff.
    intros t; split; [|tauto]. intros H; split; [exact H|].
    intros Heq. apply H. rewrite Heq. exact Hin.
  - rewrite filter_cons_True by exact Hin. f_equal.
    rewrite IH, list_filter_filter. apply list_filter_iff.
    intros t. rewrite not_elem_of_union, not_elem_of_singleton. tauto.
Qed.

Lemma filterUnseen_empty l : filterUnseen ∅ l = spec_dedupCaseInsensitive l.
Proof.
  rewrite filterUnseen_spec. induction (spec_dedupCaseInsensitive l) as [|x r IH].
  - reflexivity.
  - rewrite filter_cons_True by apply not_elem_of_empty. f_equal. exact IH.
Qed.

Lemma normalize_elem c arr :
  c ∈ normalizeUniqueCaseInsensitive arr ->
  c <> "" /\ exists s, s ∈ arr /\ c = Js.trim s.
Proof.
  unfold normalizeUniqueCaseInsensitive. intros H%filterUnseen_subset.
  apply list_elem_of_filter in H as [Ht H].
  apply list_elem_of_fmap in H as (s & -> & Hs).
  split; [|exists s; auto].
  apply truthy_nonempty. destruct (Js.truthy (Js.trim s)); [reflexivity|destruct Ht].
Qed.

Lemma toList_elem t text : t ∈ toList text -> exists s, t = Js.trim s.
Proof.
  unfold toList. destruct (negb (Js.truthy text)); [intros H; inversion H|].
  intros H%filterUnseen_subset.
  apply list_elem_of_filter in H as [_ H].
  apply list_elem_of_fmap in H as (s & -> & _). eauto.
Qed.

Lemma getCandidates_nonempty_entries pool c : c ∈ getCandidates pool -> c <> "".
Proof. unfold getCandidates. intros H%normalize_elem. tauto. Qed.

(** ** Candidate resolution *)

(** The example of the specification: selections replace the list. *)
Example getCandidates_pinned : getCandidates pinnedPool = ["y"].
Proof. reflexivity. Qed.

(** C5, as the claim states it, fails: a selection is trimmed before it
    enters the universe, so the universe of [paddedPool] is not its
    selections deduplicated. *)
Lemma getCandidates_not_plain_dedup :
  selections paddedPool = Some [" y"] /\
  [" y"] <> [] /\
  getCandidates paddedPool = ["y"] /\
  getCandidates paddedPool <> spec_dedupCaseInsensitive [" y"].
Proof. repeat split; discriminate. Qed.

(** C5, amended: when the selections are non-empty, the candidate universe
    is the selections trimmed, without the entries that are empty after
    trimming, deduplicated case-insensitively in order; the list text and
    the list array contribute nothing. For selections that are already
    trimmed and non-empty this is the selections deduplicated. *)
Theorem getCandidates_selections_replace pool sel :
  selections pool = Some sel -> sel <> [] ->
  getCandidates pool =
    spec_dedupCaseInsensitive (filter (fun s => s <> "") (map Js.trim sel))
  /\ (Forall (fun s => Js.trim s = s /\ s <> "") sel ->
      getCandidates pool = spec_dedupCaseInsensitive sel).
Proof.
  intros Hsel Hne.
  assert (Hc : getCandidates pool =
    spec_dedupCaseInsensitive (filter (fun s => s <> "") (map Js.trim sel))).
  { unfold getCandidates. rewrite Hsel.
    destruct sel as [|s0 sel']; [congruence|]. cbn [length Nat.ltb Nat.leb].
    unfold normalizeUniqueCaseInsensitive. rewrite filterUnseen_empty. f_equal.
    apply list_filter_iff. intros s. rewrite <- truthy_nonempty.
    destruct (Js.truthy s); simpl; intuition congruence. }
  split; [exact Hc|]. intros Hall. rewrite Hc. f_equal.
  clear Hc Hsel Hne. induction Hall as [|s r [Ht Hs] _ IH]; [reflexivity|].
  cbn [map]. rewrite Ht, filter_cons_True by exact Hs. f_equal. exact IH.
Qed.

Lemma getCandidates_selections_replace_witness :
  getCandidates pinnedPool = ["y"] /\
  getCandidates paddedPool = ["y"].
Proof.
  split.
  - exact (proj1 (getCandidates_selections_replace pinnedPool ["y"] eq_refl
                    ltac:(discriminate))).
  - exact (proj1 (getCandidates_selections_replace paddedPool [" y"] eq_refl
                    ltac:(discriminate))).
Defined.

(** C6, as the claim states it, fails: [getCandidates] never looks at the
    list text when there are selections, so a selection that is no token
    of the list is a candidate. *)
Lemma getCandidates_keeps_ghost_selection :
  "q" ∈ getCandidates ghostPool /\
  Js.toLowerCase "q" ∉ map Js.toLowerCase (toList (default "" (listText ghostPool))).
Proof.
  split.
  - change (getCandidates ghostPool) with ["q"]. apply list_elem_of_here.
  - change (map Js.toLowerCase (toList (default "" (listText ghostPool))))
      with ["x"; "y"; "z"].
    change (Js.toLowerCase "q") with "q".
    rewrite !not_elem_of_cons. repeat split; try discriminate.
    apply not_elem_of_nil.
Qed.

Lemma filter_length_eq {A} (P : A -> Prop) `{!forall x, Decision (P x)} (l : list A) :
  length (filter P l) = length l -> filter P l = l.
Proof.
  induction l as [|x r IH]; [reflexivity|].
  destruct (decide (P x)) as [Hx|Hx].
  - rewrite filter_cons_True by exact Hx. simpl. intros [= Hlen]. f_equal. auto.
  - rewrite filter_cons_False by exact Hx. simpl. intros Hlen.
    pose proof (length_filter P r). lia.
Qed.

(** What the effect of the editor computes: the selections whose trimmed
    lowercase form is a lowercased token of the list text. *)
Lemma reconcileSelections_filter value selected :
  reconcileSelections value selected =
  filter (fun s => Js.toLowerCase (Js.trim s)
                   ∈ map Js.toLowerCase (toList value)) selected.
Proof.
  unfold reconcileSelections.
  set (norm := filter _ selected).
  assert (Hn : norm = filter (fun s => Js.toLowerCase (Js.trim s)
                   ∈ map Js.toLowerCase (toList value)) selected).
  { apply list_filter_iff. intros s. apply elem_of_list_to_set. }
  destruct (Nat.eqb_spec (length norm) (length selected)) as [Hlen|Hlen].
  - rewrite <- Hn. symmetry. apply filter_length_eq. exact Hlen.
  - exact Hn.
Qed.

(** C6, amended: the resolver itself does not compare selections with the
    list text; the editor's effect does, keeping the selections whose
    trimmed lowercase form is a lowercased token of the list text. For a
    section whose selections went through that effect, the lowercase form
    of every resolved candidate is among the lowercased tokens of the list
    text. *)
Theorem reconciled_candidates_are_tokens section c :
  c ∈ getCandidates (poolOfSection (reconciled section)) ->
  Js.toLowerCase c ∈ map Js.toLowerCase (toList (list_ section)).
Proof.
  unfold getCandidates, poolOfSection, reconciled;
    cbn -[normalizeUniqueCaseInsensitive toList reconcileSelections].
  rewrite reconcileSelections_filter.
  destruct (filter _ (sectionSelections section)) as [|s0 sel] eqn:Hsel;
    cbn -[normalizeUniqueCaseInsensitive toList].
  - intros (_ & t & Ht & ->)%normalize_elem.
    destruct (toList_elem _ _ Ht) as [u ->]. rewrite trim_idem.
    apply list_elem_of_fmap. eauto.
  - intros (_ & s & Hs & ->)%normalize_elem.
    rewrite <- Hsel in Hs.
    apply list_elem_of_filter in Hs as [Hs _]. exact Hs.
Qed.

Lemma reconciled_candidates_are_tokens_witness :
  "Y" ∈ getCandidates (poolOfSection (reconciled staleSection)) /\
  Js.toLowerCase "Y" ∈ map Js.toLowerCase (toList (list_ staleSection)).
Proof.
  assert (H : "Y" ∈ getCandidates (poolOfSection (reconciled staleSection))).
  { change (getCandidates (poolOfSection (reconciled staleSection))) with ["Y"].
    apply list_elem_of_here. }
  split; [exact H|].
  exact (reconciled_candidates_are_tokens staleSection "Y" H).
Defined.

(** ** Doubles *)

Lemma roundDouble_small z : Z.abs z <= 9007199254740992 -> Js.roundDouble z = z.
Proof.
  intros Hz. unfold Js.roundDouble.
  destruct (Z.eq_dec (Z.abs z) 9007199254740992) as [Heq|Hne].
  - assert (Hz' : z = 9007199254740992 \/ z = -9007199254740992) by lia.
    destruct Hz' as [->| ->]; reflexivity.
  - assert (Z.log2 (Z.abs z) < 53).
    { destruct (Z.eq_dec (Z.abs z) 0) as [->|]; [reflexivity|].
      apply Z.log2_lt_pow2; lia. }
    destruct (Z.leb_spec (Z.log2 (Z.abs z) - 52) 0); [reflexivity|lia].
Qed.

(** Rounding moves a number by at most half a unit in the last place,
    which is at most 2^-53 of its magnitude. *)
Lemma roundDouble_error z :
  Z.abs (Js.roundDouble z - z) * 9007199254740992 <= Z.abs z.
Proof.
  unfold Js.roundDouble.
  set (a := Z.abs z). set (e := Z.log2 a - 52).
  destruct (Z.leb_spec e 0) as [He|He].
  - rewrite Z.sub_diag. cbn. subst a. lia.
  - assert (Ha : 0 < a).
    { destruct (Z.eq_dec a 0) as [H0|];
        [subst e; rewrite H0 in He; cbn in He; lia | subst a; lia]. }
    pose proof (Z.log2_spec a Ha) as [Hlo Hhi].
    assert (Hp : 2 ^ Z.log2 a = 2 ^ (e - 1) * 9007199254740992).
    { change 9007199254740992 with (2 ^ 53). rewrite <- Z.pow_add_r by lia.
      f_equal. lia. }
    assert (He2 : 2 ^ e = 2 * 2 ^ (e - 1)).
    { rewrite <- Z.pow_succ_r by lia. f_equal. lia. }
    pose proof (Z.div_mod a (2 ^ e) ltac:(lia)) as Hdm.
    pose proof (Z.mod_pos_bound a (2 ^ e) ltac:(lia)) as Hr.
    assert (0 < 2 ^ (e - 1)) by (apply Z.pow_pos_nonneg; lia).
    set (q := a / 2 ^ e) in *. set (r := a mod 2 ^ e) in *.
    set (half := 2 ^ (e - 1)) in *.
    assert (Hq' : forall q', (q' = q /\ r <= half) \/ (q' = q + 1 /\ half <= r) ->
               Z.abs (Z.sgn z * (q' * 2 ^ e) - z) * 9007199254740992 <= a).
    { intros q' Hq'.
      assert (Z.abs (Z.sgn z * (q' * 2 ^ e) - z) = Z.abs (q' * 2 ^ e - a)) as ->.
      { subst a. destruct z; cbn [Z.sgn Z.abs]; lia. }
      rewrite Hdm, He2. destruct Hq' as [[-> Hc]|[-> Hc]]; nia. }
    apply Hq'.
    destruct (Z.ltb_spec r half); [left; lia|].
    destruct (Z.ltb_spec half r); [right; lia|].
    destruct (Z.even q); [left|right]; lia.
Qed.

Lemma roundDouble_nonneg z : 0 <= z -> 0 <= Js.roundDouble z.
Proof.
  intros Hz. unfold Js.roundDouble. rewrite Z.abs_eq by exact Hz.
  destruct (Z.leb_spec (Z.log2 z - 52) 0); [exact Hz|].
  assert (0 <= z / 2 ^ (Z.log2 z - 52))
    by (apply Z.div_pos; [lia|apply Z.pow_pos_nonneg; lia]).
  assert (0 < 2 ^ (Z.log2 z - 52)) by (apply Z.pow_pos_nonneg; lia).
  apply Z.mul_nonneg_nonneg; [destruct z; cbn; lia|].
  apply Z.mul_nonneg_nonneg; [|lia].
  repeat match goal with |- context [if ?b then _ else _] => destruct b end; lia.
Qed.

Lemma add_exact a b : Z.abs (a + b) <= 9007199254740992 -> Js.add a b = a + b.
Proof. apply roundDouble_small. Qed.

(** ** 32-bit words *)

Lemma toUint32_range z : 0 <= Js.toUint32 z < 4294967296.
Proof. unfold Js.toUint32. apply Z.mod_pos_bound. lia. Qed.

Lemma toUint32_toInt32 z : Js.toUint32 (Js.toInt32 z) = Js.toUint32 z.
Proof.
  unfold Js.toUint32, Js.toInt32.
  rewrite <- Zminus_mod_idemp_l, Z.mod_mod by lia.
  rewrite Zminus_mod_idemp_l. f_equal. lia.
Qed.

Lemma toUint32_small z : 0 <= z < 4294967296 -> Js.toUint32 z = z.
Proof. apply Z.mod_small. Qed.

Lemma lxor_mod a b : Z.lxor a b mod 2 ^ 32 = Z.lxor (a mod 2 ^ 32) (b mod 2 ^ 32).
Proof.
  apply Z.bits_inj'. intros n Hn. rewrite Z.lxor_spec.
  destruct (Z.lt_ge_cases n 32).
  - rewrite !Z.mod_pow2_bits_low, Z.lxor_spec by lia. reflexivity.
  - rewrite !Z.mod_pow2_bits_high by lia. reflexivity.
Qed.

Lemma lor_mod a b : Z.lor a b mod 2 ^ 32 = Z.lor (a mod 2 ^ 32) (b mod 2 ^ 32).
Proof.
  apply Z.bits_inj'. intros n Hn. rewrite Z.lor_spec.
  destruct (Z.lt_ge_cases n 32).
  - rewrite !Z.mod_pow2_bits_low, Z.lor_spec by lia. reflexivity.
  - rewrite !Z.mod_pow2_bits_high by lia. reflexivity.
Qed.

Lemma toUint32_xor a b :
  Js.toUint32 (Js.xor a b) = Z.lxor (Js.toUint32 a) (Js.toUint32 b).
Proof.
  unfold Js.xor.
  change (Js.toUint32 (Z.lxor (Js.toInt32 a) (Js.toInt32 b)))
    with (Z.lxor (Js.toInt32 a) (Js.toInt32 b) mod 2 ^ 32).
  rewrite lxor_mod.
  change (Z.lxor (Js.toUint32 (Js.toInt32 a)) (Js.toUint32 (Js.toInt32 b))
          = Z.lxor (Js.toUint32 a) (Js.toUint32 b)).
  rewrite !toUint32_toInt32. reflexivity.
Qed.

Lemma toUint32_or a b :
  Js.toUint32 (Js.or a b) = Z.lor (Js.toUint32 a) (Js.toUint32 b).
Proof.
  unfold Js.or.
  change (Js.toUint32 (Z.lor (Js.toInt32 a) (Js.toInt32 b)))
    with (Z.lor (Js.toInt32 a) (Js.toInt32 b) mod 2 ^ 32).
  rewrite lor_mod.
  change (Z.lor (Js.toUint32 (Js.toInt32 a)) (Js.toUint32 (Js.toInt32 b))
          = Z.lor (Js.toUint32 a) (Js.toUint32 b)).
  rewrite !toUint32_toInt32. reflexivity.
Qed.

Lemma toUint32_imul a b :
  Js.toUint32 (Js.imul a b) = (Js.toUint32 a * Js.toUint32 b) mod 2 ^ 32.
Proof. unfold Js.imul. rewrite toUint32_toInt32. reflexivity. Qed.

Lemma toUint32_plus a b :
  Js.toUint32 (a + b) = (Js.toUint32 a + Js.toUint32 b) mod 2 ^ 32.
Proof. unfold Js.toUint32. apply Zplus_mod. Qed.

Lemma ushr_range a n : 0 <= n -> 0 <= Js.ushr a n < 4294967296.
Proof.
  intros Hn. unfold Js.ushr. pose proof (toUint32_range a) as Ha.
  rewrite Z.shiftr_div_pow2 by exact Hn.
  assert (0 < 2 ^ n) by (apply Z.pow_pos_nonneg; lia).
  split; [apply Z.div_pos; lia|].
  apply Z.div_lt_upper_bound; nia.
Qed.

Lemma toUint32_ushr a n :
  0 <= n -> Js.toUint32 (Js.ushr a n) = Z.shiftr (Js.toUint32 a) n.
Proof. intros Hn. apply toUint32_small, ushr_range, Hn. Qed.

Lemma ushr_0 z : Js.ushr z 0 = Js.toUint32 z.
Proof. unfold Js.ushr. apply Z.shiftr_0_r. Qed.

Lemma orElse_0 z : Js.orElse z 0 = z.
Proof. unfold Js.orElse. destruct (Z.eqb_spec z 0); congruence. Qed.

(** ** The seeded sampler *)

(** [hash32], computed on signed 32-bit integers by [^] and [Math.imul], is
    the FNV-1a hash of the specification. *)
Lemma hash32_spec str : hash32 str = spec_stableHash str.
Proof.
  unfold hash32, spec_stableHash. rewrite !ushr_0.
  change (Js.toUint32 2166136261) with 2166136261.
  assert (H : forall l h acc, Js.toUint32 h = acc ->
    Js.toUint32 (fold_left hash32_step l h)
    = fold_left (fun acc c => (Z.lxor acc (Z.of_nat (nat_of_ascii c)) * 16777619)
                              mod 2 ^ 32) l acc).
  { induction l as [|c l IH]; intros h acc Hh; [exact Hh|].
    cbn [fold_left]. apply IH. unfold hash32_step.
    rewrite toUint32_imul, toUint32_xor, Hh.
    change (Js.toUint32 16777619) with 16777619.
    rewrite (toUint32_small (Js.charCode c)); [reflexivity|].
    unfold Js.charCode. pose proof (nat_ascii_bounded c). lia. }
  apply H. reflexivity.
Qed.

Lemma hash32_range str : 0 <= hash32 str < 4294967296.
Proof. unfold hash32. rewrite ushr_0. apply toUint32_range. Qed.

(** The value a closure returns is the mixing of the specification applied
    to the state as a 32-bit word. *)
Lemma mulberry32_numerator_spec t :
  mulberry32_numerator t = spec_mix (Js.toUint32 t).
Proof.
  unfold mulberry32_numerator, spec_mix. cbn zeta.
  rewrite ushr_0, toUint32_xor, toUint32_ushr by lia.
  set (r1 := Js.imul (Js.xor t (Js.ushr t 15)) (Js.or 1 t)).
  assert (Hr1 : Js.toUint32 r1
                = (Z.lxor (Js.toUint32 t) (Z.shiftr (Js.toUint32 t) 15)
                   * Z.lor (Js.toUint32 t) 1) mod 2 ^ 32).
  { subst r1. rewrite toUint32_imul, toUint32_xor, toUint32_or, toUint32_ushr by lia.
    change (Js.toUint32 1) with 1. rewrite (Z.lor_comm 1). reflexivity. }
  rewrite toUint32_xor, toUint32_plus, toUint32_imul, toUint32_xor, toUint32_or,
    toUint32_ushr by lia.
  change (Js.toUint32 61) with 61. rewrite (Z.lor_comm 61).
  rewrite Hr1. rewrite Zplus_mod_idemp_r. reflexivity.
Qed.

Lemma mulberry32_numerator_range t : 0 <= mulberry32_numerator t < 4294967296.
Proof. unfold mulberry32_numerator. rewrite ushr_0. apply toUint32_range. Qed.

(** While the state of a closure stays within 2^53 it is exact, and the
    closure returns what the mulberry32 algorithm returns from the state
    taken modulo 2^32. *)
Lemma mulberry32_draws_spec n : forall t,
  0 <= t -> t + Z.of_nat n * 1831565813 <= 9007199254740992 ->
  mulberry32_draws n t = spec_generator n (Js.toUint32 t).
Proof.
  induction n as [|n IH]; intros t Ht Hn; [reflexivity|].
  cbn [mulberry32_draws spec_generator]. unfold mulberry32_next.
  rewrite add_exact by lia. cbn zeta.
  rewrite mulberry32_numerator_spec, IH by lia.
  assert (Js.toUint32 (t + 1831565813) = (Js.toUint32 t + 1831565813) mod 2 ^ 32) as ->.
  { rewrite toUint32_plus. reflexivity. }
  reflexivity.
Qed.

Lemma unitQ_bounds x : unitQ x -> (0 <= x < 1)%Q.
Proof.
  destruct x as [k d]. unfold unitQ, Qle, Qlt. cbn [Qnum Qden].
  intros [Hk _]. split; lia.
Qed.

Lemma callRng_unitQ g e : unitQ (callRng g e).1.1.
Proof.
  destruct g as [|t]; unfold unitQ;
    cbn [callRng Math_random mulberry32_next unitInterval53 fst Qnum Qden].
  - assert (source e (drawn e) mod 9007199254740992 < 9007199254740992)%N
      as Hlt by (apply N.mod_lt; discriminate).
    apply N2Z.inj_lt in Hlt. split; [|lia].
    split; [apply N2Z.is_nonneg|exact Hlt].
  - split; [apply mulberry32_numerator_range|lia].
Qed.

(** The index [Math.floor(rng() * n)] is in range although the product is
    rounded: rounding moves [m * n / 2^d] by at most 2^-53 of itself, which
    does not reach [n] from [(2^d - 1) * n / 2^d] when [d <= 53]. *)
Lemma floorMul_range x n : unitQ x -> 0 < n -> 0 <= Js.floorMul x n < n.
Proof.
  destruct x as [m d]. unfold unitQ, Js.floorMul. cbn [Qnum Qden].
  intros [Hm Hd] Hn.
  pose proof (roundDouble_nonneg (m * n) ltac:(nia)) as H0.
  pose proof (roundDouble_error (m * n)) as He.
  rewrite (Z.abs_eq (m * n)) in He by nia.
  split.
  - apply Z.div_pos; lia.
  - apply Z.div_lt_upper_bound; [lia|].
    assert ((Js.roundDouble (m * n) - m * n) * 9007199254740992 <= m * n) by lia.
    nia.
Qed.

(** The rounding matters: for this output of [Math.random] and three
    candidates the exact product is below 2, the double product is 2. *)
Example floorMul_rounds :
  Js.floorMul (6004799503160661 # 9007199254740992) 3 = 2
  /\ Qfloor ((6004799503160661 # 9007199254740992) * inject_Z 3) = 1.
Proof. split; reflexivity. Qed.

Lemma index_in_range {A} (l : list A) i :
  0 <= i < Z.of_nat (length l) -> exists c, Js.index l i = Some c /\ c ∈ l.
Proof.
  intros Hi. unfold Js.index. destruct (Z.ltb_spec i 0); [lia|].
  destruct (lookup_lt_is_Some_2 l (Z.to_nat i)) as [c Hc]; [lia|].
  exists c. split; [exact Hc|]. eapply list_elem_of_lookup_2, Hc.
Qed.

Lemma draws_mulberry32 n t e : draws n (Mulberry32 t) e = (mulberry32_draws n t, e).
Proof.
  revert t; induction n as [|n IH]; intros t; [reflexivity|].
  cbn [draws callRng mulberry32_draws].
  destruct (mulberry32_next t) as [x t']. rewrite IH. reflexivity.
Qed.

Lemma makeSectionRng_seeded seedBase batchIndex sectionId :
  seedBase <> -1 ->
  makeSectionRng seedBase batchIndex sectionId
  = Mulberry32 (Js.toUint32 (Js.add (Js.add seedBase batchIndex) (hash32 sectionId))).
Proof.
  intros Hseed. unfold makeSectionRng, mulberry32, mulberry32_init.
  destruct (Z.eqb_spec seedBase (-1)); [contradiction|].
  rewrite orElse_0, ushr_0. reflexivity.
Qed.

(** C3, as the claim states it, fails for a large seed: the code adds the
    three numbers as doubles. With the run seed 2^53, the batch index 1 and
    the empty identity, the first sum is rounded back to 2^53 and the second
    to an even number, so that the state is 2166136260 where the sum of the
    three integers modulo 2^32 is 2166136262, and the first value drawn is
    not the one the mulberry32 algorithm gives from that state. *)
Lemma makeSectionRng_large_seed_rounds :
  9007199254740992 <> -1
  /\ makeSectionRng 9007199254740992 1 "" = Mulberry32 2166136260
  /\ spec_seedState 9007199254740992 1 "" = 2166136262
  /\ (draws 1 (makeSectionRng 9007199254740992 1 "") entropyA).1
     <> spec_generator 1 (spec_seedState 9007199254740992 1 "").
Proof.
  split; [discriminate|]. split; [reflexivity|]. split; [reflexivity|].
  vm_compute. discriminate.
Qed.

(** C3, amended. For a run seed other than -1, two generators built from
    the same three inputs return the same values, whatever the entropy
    sources are, and never read them. When the run seed and the batch index
    are small enough for their sum with a hash to be exact
    ([|seed| + |batchIndex| + 2^32 <= 2^53]), the generator is seeded with
    [seed + batchIndex + stableHash(identity)] modulo 2^32, [stableHash]
    being the FNV-1a hash, and its first 4917756 values are those of the
    mulberry32 algorithm from that state: so long the state of the closure,
    which is never wrapped, stays within 2^53. *)
Theorem makeSectionRng_deterministic seedBase batchIndex sectionId n e1 e2 :
  seedBase <> -1 ->
  ((draws n (makeSectionRng seedBase batchIndex sectionId) e1).1 =
   (draws n (makeSectionRng seedBase batchIndex sectionId) e2).1
   /\ (draws n (makeSectionRng seedBase batchIndex sectionId) e1).2 = e1)
  /\ (Z.abs seedBase + Z.abs batchIndex + 4294967296 <= 9007199254740992 ->
      makeSectionRng seedBase batchIndex sectionId
      = Mulberry32 (spec_seedState seedBase batchIndex sectionId)
      /\ (Z.of_nat n <= 4917756 ->
          (draws n (makeSectionRng seedBase batchIndex sectionId) e1).1
          = spec_generator n (spec_seedState seedBase batchIndex sectionId))).
Proof.
  intros Hseed. rewrite (makeSectionRng_seeded _ _ _ Hseed). split.
  - rewrite !draws_mulberry32. split; reflexivity.
  - intros Hrange. pose proof (hash32_range sectionId) as Hh.
    assert (Hstate :
      Js.toUint32 (Js.add (Js.add seedBase batchIndex) (hash32 sectionId))
      = spec_seedState seedBase batchIndex sectionId).
    { rewrite (add_exact seedBase batchIndex) by lia. rewrite add_exact by lia.
      rewrite hash32_spec. reflexivity. }
    rewrite Hstate. split; [reflexivity|]. intros Hn.
    rewrite draws_mulberry32. cbn [fst].
    pose proof (toUint32_range (seedBase + batchIndex + spec_stableHash sectionId)) as Hs.
    change (Js.toUint32 (seedBase + batchIndex + spec_stableHash sectionId))
      with (spec_seedState seedBase batchIndex sectionId) in Hs.
    rewrite mulberry32_draws_spec by lia.
    rewrite toUint32_small by exact Hs. reflexivity.
Qed.

Lemma makeSectionRng_deterministic_witness :
  (draws 4 (makeSectionRng 7 2 "lens") entropyA).1
  = spec_generator 4 (spec_seedState 7 2 "lens").
Proof.
  exact (proj2 (proj2 (makeSectionRng_deterministic 7 2 "lens" 4 entropyA entropyB
                         ltac:(discriminate))
                  ltac:(cbn; lia))
           ltac:(cbn; lia)).
Defined.

(** The first value of [mulberry32(0)]. *)
Example mulberry32_first : (mulberry32_next (mulberry32_init 0)).1 = 1144304738 # 4294967296.
Proof. reflexivity. Qed.

(** The FNV-1a hash of ["abc"]. *)
Example hash32_abc : hash32 "abc" = 440920331.
Proof. reflexivity. Qed.

(** ** Single draws *)

Lemma candidates_length_eqb pool :
  (length (getCandidates pool) =? 0)%nat = true <-> getCandidates pool = [].
Proof.
  rewrite Nat.eqb_eq. destruct (getCandidates pool); simpl; split; congruence.
Qed.

Lemma cycle_index (l : list string) b :
  l <> [] -> 0 <= b ->
  Js.index l (Js.rem b (Z.of_nat (length l))) =
  l !! (Z.to_nat b mod length l)%nat.
Proof.
  intros Hl Hb. assert (0 < Z.of_nat (length l)) by (destruct l; simpl; [congruence|lia]).
  unfold Js.index, Js.rem. rewrite Z.rem_mod_nonneg by lia.
  pose proof (Z.mod_pos_bound b (Z.of_nat (length l))).
  destruct (Z.ltb_spec (b mod Z.of_nat (length l)) 0); [lia|].
  rewrite Z2Nat.inj_mod, Nat2Z.id by lia. reflexivity.
Qed.

(** C4: with [isRandomized] false and [N > 0] candidates, the draw at batch
    index [b] is [candidates[b mod N]], whatever the seed; three candidates
    over the batch indices 0 to 4 give candidates 0, 1, 2, 0, 1. *)
Theorem pickOneValue_cycles pool seedBase batchIndex sectionId e :
  isRandomized pool = false -> getCandidates pool <> [] -> 0 <= batchIndex ->
  pickOneValue pool seedBase batchIndex sectionId e =
    (getCandidates pool !! (Z.to_nat batchIndex mod length (getCandidates pool))%nat, e)
  /\ is_Some (getCandidates pool !! (Z.to_nat batchIndex mod length (getCandidates pool))%nat)
  /\ (forall a b c, getCandidates pool = [a; b; c] ->
      map (fun i => (pickOneValue pool seedBase i sectionId e).1) [0; 1; 2; 3; 4]
      = [Some a; Some b; Some c; Some a; Some b]).
Proof.
  intros Hr Hne Hb.
  assert (Hpick : forall i, 0 <= i ->
    pickOneValue pool seedBase i sectionId e =
    (getCandidates pool !! (Z.to_nat i mod length (getCandidates pool))%nat, e)).
  { intros i Hi. unfold pickOneValue. rewrite Hr.
    destruct (length (getCandidates pool) =? 0)%nat eqn:Hlen.
    - apply candidates_length_eqb in Hlen. contradiction.
    - rewrite cycle_index by assumption. reflexivity. }
  split; [apply Hpick, Hb|]. split.
  - apply lookup_lt_is_Some_2, Nat.mod_upper_bound.
    destruct (getCandidates pool); simpl; congruence.
  - intros a b c Habc. cbn [map]. rewrite !Hpick by lia. rewrite Habc. reflexivity.
Qed.

Lemma pickOneValue_cycles_witness :
  map (fun i => (pickOneValue threePool 7 i "lens" entropyA).1) [0; 1; 2; 3; 4]
  = [Some "35mm"; Some "50mm"; Some "85mm"; Some "35mm"; Some "50mm"].
Proof.
  exact (proj2 (proj2 (pickOneValue_cycles threePool 7 4 "lens" entropyA eq_refl
                         ltac:(discriminate) ltac:(lia)))
           "35mm" "50mm" "85mm" eq_refl).
Defined.

(** C9: [pickOneValue] returns the empty string exactly when there is no
    candidate, and a member of the candidate list otherwise; a generator
    returns a number in [0, 1), so that the index [floor(rng() * N)] lies
    in [0, N), the product being the rounded one of the doubles. *)
Theorem pickOneValue_closed pool seedBase batchIndex sectionId e :
  0 <= batchIndex ->
  ((pickOneValue pool seedBase batchIndex sectionId e).1 = Some ""
   <-> getCandidates pool = [])
  /\ (getCandidates pool <> [] ->
      exists c, c ∈ getCandidates pool /\
        (pickOneValue pool seedBase batchIndex sectionId e).1 = Some c)
  /\ (forall g e' N, 0 < N ->
      (0 <= (callRng g e').1.1 < 1)%Q /\
      0 <= Js.floorMul (callRng g e').1.1 N < N).
Proof.
  intros Hb.
  assert (Hin : getCandidates pool <> [] ->
      exists c, c ∈ getCandidates pool /\
        (pickOneValue pool seedBase batchIndex sectionId e).1 = Some c).
  { intros Hne. unfold pickOneValue.
    destruct (length (getCandidates pool) =? 0)%nat eqn:Hlen;
      [apply candidates_length_eqb in Hlen; contradiction|].
    assert (0 < Z.of_nat (length (getCandidates pool)))
      by (destruct (getCandidates pool); simpl; [congruence|lia]).
    destruct (isRandomized pool).
    - destruct (callRng (makeSectionRng seedBase batchIndex sectionId) e)
        as [[x g'] e'] eqn:Hcall.
      pose proof (callRng_unitQ (makeSectionRng seedBase batchIndex sectionId) e) as Hx.
      rewrite Hcall in Hx. simpl in Hx.
      destruct (index_in_range (getCandidates pool)
                  (Js.floorMul x (Z.of_nat (length (getCandidates pool)))))
        as (c & Hc & Hcin); [apply floorMul_range; assumption|].
      exists c. simpl. auto.
    - destruct (index_in_range (getCandidates pool)
                  (Js.rem batchIndex (Z.of_nat (length (getCandidates pool)))))
        as (c & Hc & Hcin).
      { unfold Js.rem. rewrite Z.rem_mod_nonneg by lia.
        apply Z.mod_pos_bound. lia. }
      exists c. simpl. auto. }
  split; [|split; [exact Hin|]].
  - split.
    + intros Hpick. destruct (getCandidates pool) as [|c0 l] eqn:Hcs; [reflexivity|].
      destruct Hin as (c & Hc & Hpc); [congruence|].
      rewrite Hpc in Hpick. injection Hpick as ->.
      rewrite <- Hcs in Hc. apply getCandidates_nonempty_entries in Hc. congruence.
    + intros Hnil. unfold pickOneValue. rewrite Hnil. reflexivity.
  - intros g e' N HN. split.
    + apply unitQ_bounds, callRng_unitQ.
    + apply floorMul_range; [apply callRng_unitQ|exact HN].
Qed.

Lemma pickOneValue_closed_witness :
  exists c, c ∈ getCandidates randomPool /\
    (pickOneValue randomPool (-1) 2 "sky" entropyB).1 = Some c.
Proof.
  exact (proj1 (proj2 (pickOneValue_closed randomPool (-1) 2 "sky" entropyB
                         ltac:(lia))) ltac:(discriminate)).
Defined.

(** ** The balanced plan *)







(** With [isRandomized] true the plan is a shuffled cycle. *)
Example makeBalancedPlan_shuffled :
  (makeBalancedPlan randomPool 7 "sky" 5 entropyA).1 =
  Js.Returned [Some "red"; Some "blue"; Some "grey"; Some "red"; Some "blue"].
Proof. reflexivity. Qed.

(** ** Planning the batch *)

(** C7, as the claim states it, fails: a requested batch size of 0 is not
    rejected; one payload is built. *)
Lemma onRun_batch_zero_not_rejected :
  0 < 1 /\
  (onRun_payloads "sk-test" demoSections 7 0 entropyA).1 =
    Js.Returned [ {[ "Lens" := "35mm" ]} ] /\
  forall err, (onRun_payloads "sk-test" demoSections 7 0 entropyA).1 <> Js.Thrown err.
Proof.
  assert (H : (onRun_payloads "sk-test" demoSections 7 0 entropyA).1 =
    Js.Returned [ {[ "Lens" := "35mm" ]} ]) by (vm_compute; reflexivity).
  split; [lia|]. split; [exact H|]. intros err. rewrite H. discriminate.
Qed.

(** C7, amended: a requested batch size below 1 is not an error; it is
    raised to 1, and the plan is the single payload built at batch index
    0. The only rejection in the planning part is that of an empty API
    key. *)
Theorem onRun_clamps_batch apiKey sections seed batch e :
  apiKey <> "" -> batch < 1 ->
  onRun_payloads apiKey sections seed batch e =
    (Js.Returned [(buildOne sections 0 seed e).1], (buildOne sections 0 seed e).2).
Proof.
  intros Hkey Hb. unfold onRun_payloads.
  apply truthy_nonempty in Hkey. rewrite Hkey. cbn [negb].
  assert (Hsize : Z.max 1 (Js.orElse batch 1) = 1).
  { unfold Js.orElse. destruct (Z.eqb_spec batch 0); lia. }
  rewrite Hsize. change (Z.to_nat 1) with 1%nat. cbn [buildPayloads].
  destruct (buildOne sections 0 seed e) as [p e']. reflexivity.
Qed.

Lemma onRun_clamps_batch_witness :
  (onRun_payloads "sk-test" demoSections 7 (-3) entropyA).1
  = Js.Returned [(buildOne demoSections 0 7 entropyA).1].
Proof.
  exact (f_equal fst (onRun_clamps_batch "sk-test" demoSections 7 (-3) entropyA
                        ltac:(discriminate) ltac:(lia))).
Defined.

(** ** Retrying a request *)

(** C1 on the code: a 400 response is a client error, yet with three tries
    the request is issued three times, with the two back-off sleeps in
    between, before the error surfaces. The [throw] of the non-retryable
    branch is caught by the [catch] of the same iteration, which records it
    and lets the loop go on. *)
Theorem fetchWithRetry_retries_client_error :
  (fetchWithRetry alwaysBadRequest 500 3 entropyA).1 =
  (Js.Thrown (HttpError 400 "bad request"),
   [Fetched 0; Slept 500; Fetched 1; Slept 1000; Fetched 2]).
Proof. reflexivity. Qed.

(** The retryable responses are retried, as intended. *)
Example fetchWithRetry_retries_rate_limit :
  (fetchWithRetry
     (fun attempt => if (attempt <? 2)%nat
                     then Responded (mkResponse 429 "" BadJson)
                     else Responded (mkResponse 200 "" (Json (Some " done "))))
     500 3 entropyA).1 =
  (Js.Returned (mkResponse 200 "" (Json (Some " done "))),
   [Fetched 0; Slept 500; Fetched 1; Slept 1000; Fetched 2]).
Proof. reflexivity. Qed.

(** ** What one call settles with *)

(** Names the two runs of the loop that differ in the entropy only, applies
    the induction hypothesis to them and splits their results. *)
Ltac pair_loops IH :=
  match goal with
  | |- context [fetchLoop ?f ?b ?a ?l ?n ?x] =>
      match goal with
      | |- context [fetchLoop f b a l n ?y] =>
          tryif constr_eq x y then fail else
            (specialize (IH a l x y);
             destruct (fetchLoop f b a l n x) as [[? ?] ?];
             destruct (fetchLoop f b a l n y) as [[? ?] ?])
      end
  end.

(** The completion of the retry loop does not depend on the entropy source,
    which only feeds the jitter of the sleeps. *)
Lemma fetchLoop_completion fetch baseDelay fuel :
  forall attempt lastErr e1 e2,
    (fetchLoop fetch baseDelay attempt lastErr fuel e1).1.1 =
    (fetchLoop fetch baseDelay attempt lastErr fuel e2).1.1.
Proof.
  induction fuel as [|fuel IH]; intros attempt lastErr e1 e2; [reflexivity|].
  cbn [fetchLoop].
  destruct (tryBlock (fetch attempt)) as [res|err|thrown]; [reflexivity| |];
    (destruct fuel as [|fuel']; [reflexivity|]);
    cbn [Math_random]; pair_loops IH; exact IH.
Qed.

(** Every iteration starts by issuing the request. *)
Lemma fetchLoop_first_event fetch baseDelay attempt lastErr fuel e :
  exists evs,
    (fetchLoop fetch baseDelay attempt lastErr (S fuel) e).1.2 = Fetched attempt :: evs.
Proof.
  cbn [fetchLoop].
  destruct (tryBlock (fetch attempt)) as [res|err|thrown];
    [eexists; reflexivity| |];
    destruct fuel as [|fuel']; cbn [Math_random];
    match goal with
    | |- context [fetchLoop ?f ?b ?a ?l ?n ?x] =>
        destruct (fetchLoop f b a l n x) as [[? ?] ?]
    end; eexists; reflexivity.
Qed.

(** The defect behind C1 in general: whenever an attempt does not return a
    successful response and a further try is left, the request is issued
    again, whatever the failure was. *)
Lemma fetchLoop_any_failure_is_retried fetch baseDelay attempt lastErr fuel e :
  (forall res, tryBlock (fetch attempt) <> TryReturn res) ->
  Fetched (S attempt)
  ∈ (fetchLoop fetch baseDelay attempt lastErr (S (S fuel)) e).1.2.
Proof.
  intros Hfail. remember (S fuel) as fuel1 eqn:Hfuel. cbn [fetchLoop].
  destruct (tryBlock (fetch attempt)) as [res|err|thrown] eqn:Htry;
    [destruct (Hfail res); reflexivity| |];
    subst fuel1; cbn [Math_random];
    match goal with
    | |- context [fetchLoop ?f ?b ?a ?l (S ?n) ?x] =>
        destruct (fetchLoop_first_event f b a l n x) as [evs Hevs];
        destruct (fetchLoop f b a l (S n) x) as [[r ev] x']
    end;
    cbn [fst snd] in *; subst ev;
    apply list_elem_of_further, list_elem_of_further, list_elem_of_here.
Qed.

Lemma fetchWithRetry_completion fetch baseDelay tries e1 e2 :
  (fetchWithRetry fetch baseDelay tries e1).1.1 =
  (fetchWithRetry fetch baseDelay tries e2).1.1.
Proof. apply fetchLoop_completion. Qed.

Lemma callOpenAI_completion fetch maxRetries baseDelay e1 e2 :
  (callOpenAI fetch maxRetries baseDelay e1).1 =
  (callOpenAI fetch maxRetries baseDelay e2).1.
Proof.
  unfold callOpenAI, execute, apiCall.
  pose proof (fetchWithRetry_completion fetch baseDelay maxRetries e1 e2) as H.
  destruct (fetchWithRetry fetch baseDelay maxRetries e1) as [[r1 ev1] x1].
  destruct (fetchWithRetry fetch baseDelay maxRetries e2) as [[r2 ev2] x2].
  cbn in H. subst r2.
  destruct r1 as [res|err]; [destruct (body res)|]; reflexivity.
Qed.

(** The slot value in terms of the request: the trimmed content of a
    response that was obtained and parsed, the empty string otherwise. *)
Lemma slotValue_callOpenAI fetch e e' :
  slotValue (callOpenAI fetch 3 500 e).1 =
  match (fetchWithRetry fetch 500 3 e').1.1 with
  | Js.Returned res =>
      match body res with
      | Json (Some content) => Js.trim content
      | _ => ""
      end
  | Js.Thrown _ => ""
  end.
Proof.
  rewrite (callOpenAI_completion fetch 3 500 e e').
  unfold callOpenAI, execute, apiCall.
  destruct (fetchWithRetry fetch 500 3 e') as [[r ev] x]. cbn [fst].
  destruct r as [res|err]; [|reflexivity].
  destruct (body res) as [|[content|]]; reflexivity.
Qed.

Lemma tally_insert f ws w v v' :
  ws !! w = Some v ->
  (tally f (<[w := v']> ws) + f v = tally f ws + f v')%nat.
Proof.
  revert w; induction ws as [|x r IH]; intros [|w] Hw; try discriminate.
  - injection Hw as ->. cbn. lia.
  - change (<[S w:=v']> (x :: r)) with (x :: <[w:=v']> r).
    change ((x :: r) !! S w) with (r !! w) in Hw.
    cbn [tally]. specialize (IH w Hw). lia.
Qed.

Lemma tally_awaiting_zero ws :
  forallb isFinished ws = true -> tally awaitingOne ws = 0%nat.
Proof.
  induction ws as [|x r IH]; [reflexivity|]. cbn.
  intros [Hx Hr]%andb_true_iff. destruct x; try discriminate. cbn. auto.
Qed.

Lemma forallb_isFinished ws w v :
  forallb isFinished ws = true -> ws !! w = Some v -> v = Finished.
Proof.
  intros H Hw. apply list_elem_of_lookup_2 in Hw. apply list_elem_of_In in Hw.
  rewrite forallb_forall in H. specialize (H v Hw). destruct v; [discriminate..|reflexivity].
Qed.

Lemma not_allFinished ws :
  forallb isFinished ws = false ->
  exists w v, ws !! w = Some v /\ v <> Finished.
Proof.
  induction ws as [|x r IH]; [discriminate|]. cbn.
  destruct x; cbn; try (intros _; exists 0%nat; eexists; split; [reflexivity|discriminate]).
  intros (w & v & Hw & Hv)%IH. exists (S w), v. auto.
Qed.

Section DispatcherFacts.

Local Open Scope nat_scope.

Context {Messages : Type}.
Variable network : Messages -> nat -> nat -> FetchResult.
Variable queue : list Messages.

(** The three kinds of turn, read off the fields of the two states. *)
Lemma stepWorker_cases w s s' :
  stepWorker network queue w s = Some s' ->
  (workers s !! w = Some AtLoopHead /\ index s < length queue /\
   index s' = S (index s) /\ results s' = results s /\
   progress s' = progress s /\
   workers s' = <[w := Awaiting (index s)]> (workers s))
  \/ (workers s !! w = Some AtLoopHead /\ length queue <= index s /\
      index s' = index s /\ results s' = results s /\
      progress s' = progress s /\
      workers s' = <[w := Finished]> (workers s))
  \/ (exists i m,
        workers s !! w = Some (Awaiting i) /\ queue !! i = Some m /\
        index s' = index s /\
        results s' = <[i := settledValue network m i]> (results s) /\
        workers s' = <[w := AtLoopHead]> (workers s) /\
        total (progress s') = total (progress s) /\
        done_ (progress s') = S (done_ (progress s)) /\
        ((ok_ (progress s') = S (ok_ (progress s)) /\
          fail (progress s') = fail (progress s))
         \/ (ok_ (progress s') = ok_ (progress s) /\
             fail (progress s') = S (fail (progress s))))).
Proof.
  unfold stepWorker.
  destruct (workers s !! w) as [[|i|]|] eqn:Hw; try discriminate.
  - destruct (Nat.ltb_spec (index s) (length queue)) as [Hlt|Hge];
      intros [= <-]; cbn; [left|right; left]; auto 10.
  - destruct (queue !! i) as [m|] eqn:Hq; [|discriminate].
    pose proof (callOpenAI_completion (network m i) 3 500 (entropy s) entropyZero) as Hc.
    destruct (callOpenAI (network m i) 3 500 (entropy s)) as [settled e'].
    cbn [fst] in Hc.
    intros Hs'. right; right; exists i, m. unfold settledValue. rewrite <- Hc.
    destruct settled as [result|err]; injection Hs' as <-; cbn; auto 12.
Qed.

Lemma insert_nonempty (ws : list Worker) w v : ws <> [] -> <[w := v]> ws <> [].
Proof.
  intros Hne Heq. apply (f_equal length) in Heq. rewrite length_insert in Heq.
  destruct ws; [congruence|discriminate].
Qed.

Lemma no_awaiting_before (ws : list Worker) w v i :
  ws !! w = Some v -> v <> Awaiting i ->
  (forall w', <[w := AtLoopHead]> ws !! w' <> Some (Awaiting i)
              \/ <[w := Finished]> ws !! w' <> Some (Awaiting i)
              \/ (exists j, <[w := Awaiting j]> ws !! w' <> Some (Awaiting i))) ->
  forall w', ws !! w' <> Some (Awaiting i).
Proof.
  intros Hw Hv Hno w' Hw'. destruct (decide (w' = w)) as [->|Hne]; [congruence|].
  destruct (Hno w') as [H|[H|[j H]]]; apply H;
    rewrite list_lookup_insert_ne by congruence; exact Hw'.
Qed.

Lemma stepWorker_preserves w s s' :
  Inv network queue s -> stepWorker network queue w s = Some s' -> Inv network queue s'.
Proof.
  intros HI Hstep.
  destruct (stepWorker_cases _ _ _ Hstep)
    as [(Hw & Hlt & Hi & Hr & Hp & Hws)
       |[(Hw & Hge & Hi & Hr & Hp & Hws)
        |(i & m & Hw & Hq & Hi & Hr & Hws & Ht & Hd & Hof)]];
    destruct HI as [Ires Iidx Iws Iclaimed Iowner Islot Ifin Idone Iok Itotal];
    constructor; rewrite ?Hi, ?Hr, ?Hp, ?Hws; try assumption;
    try (apply insert_nonempty; assumption).
  - (* a job is claimed *)
    intros w' i' H. apply list_lookup_insert_Some in H as [(_ & [= <-] & _)|(_ & H)];
      [lia|apply Iclaimed in H; lia].
  - intros w1 w2 i' H1 H2.
    apply list_lookup_insert_Some in H1 as [(<- & Heq1 & _)|(_ & H1)];
      apply list_lookup_insert_Some in H2 as [(<- & Heq2 & _)|(_ & H2)];
      try reflexivity.
    + injection Heq1 as <-. apply Iclaimed in H2. lia.
    + injection Heq2 as <-. apply Iclaimed in H1. lia.
    + eapply Iowner; eassumption.
  - intros i' m' Hi' Hq Hno.
    assert (i' <> index s).
    { intros ->. apply (Hno w). apply list_lookup_insert_eq.
      eapply lookup_lt_Some, Hw. }
    apply Islot; [lia|exact Hq|].
    eapply no_awaiting_before; [exact Hw|discriminate|].
    intros w'. right; right. exists (index s). apply Hno.
  - intros w' H. apply list_lookup_insert_Some in H as [(_ & [=] & _)|(_ & H)].
    apply Ifin in H. lia.
  - pose proof (tally_insert awaitingOne _ w _ (Awaiting (index s)) Hw) as Ht.
    cbn [awaitingOne isAwaiting] in Ht. lia.
  - (* a worker returns *)
    intros w' i' H. apply list_lookup_insert_Some in H as [(_ & [=] & _)|(_ & H)].
    eapply Iclaimed, H.
  - intros w1 w2 i' H1 H2.
    apply list_lookup_insert_Some in H1 as [(_ & [=] & _)|(_ & H1)].
    apply list_lookup_insert_Some in H2 as [(_ & [=] & _)|(_ & H2)].
    eapply Iowner; eassumption.
  - intros i' m' Hi' Hq Hno. apply Islot; [exact Hi'|exact Hq|].
    eapply no_awaiting_before; [exact Hw|discriminate|].
    intros w'. right; left. apply Hno.
  - intros w' H. lia.
  - pose proof (tally_insert awaitingOne _ w _ Finished Hw) as Ht.
    cbn [awaitingOne isAwaiting] in Ht. lia.
  - (* a call settles *) rewrite length_insert. exact Ires.
  - intros w' i' H. apply list_lookup_insert_Some in H as [(_ & [=] & _)|(_ & H)].
    eapply Iclaimed, H.
  - intros w1 w2 i' H1 H2.
    apply list_lookup_insert_Some in H1 as [(_ & [=] & _)|(_ & H1)].
    apply list_lookup_insert_Some in H2 as [(_ & [=] & _)|(_ & H2)].
    eapply Iowner; eassumption.
  - intros i' m' Hi' Hq' Hno.
    destruct (decide (i' = i)) as [->|Hne].
    + assert (m' = m) as -> by congruence.
      apply list_lookup_insert_eq. rewrite Ires. eapply lookup_lt_Some, Hq.
    + rewrite list_lookup_insert_ne by congruence.
      apply Islot; [exact Hi'|exact Hq'|].
      intros w' Hw'. destruct (decide (w' = w)) as [->|Hnw]; [congruence|].
      apply (Hno w'). rewrite list_lookup_insert_ne by congruence. exact Hw'.
  - intros w' H. apply list_lookup_insert_Some in H as [(_ & [=] & _)|(_ & H)].
    eapply Ifin, H.
  - pose proof (tally_insert awaitingOne _ w _ AtLoopHead Hw) as Ht'.
    cbn [awaitingOne isAwaiting] in Ht'. lia.
  - destruct Hof as [[-> ->]|[-> ->]]; lia.
  - lia.
Qed.

Lemma run_preserves schedule s : Inv network queue s -> Inv network queue (run network queue schedule s).
Proof.
  revert s; induction schedule as [|w r IH]; intros s HI; [exact HI|].
  cbn [run]. apply IH.
  destruct (stepWorker network queue w s) as [s'|] eqn:Hstep; cbn [default];
    [eapply stepWorker_preserves; eassumption|exact HI].
Qed.

Lemma run_app schedule1 schedule2 s :
  run network queue (schedule1 ++ schedule2) s =
  run network queue schedule2 (run network queue schedule1 s).
Proof.
  revert s; induction schedule1 as [|w r IH]; intros s; [reflexivity|].
  cbn [app run]. apply IH.
Qed.

Lemma workerCount_pos maxParallel : 1 <= workerCount maxParallel.
Proof. unfold workerCount. lia. Qed.

Lemma tally_replicate f n v : tally f (replicate n v) = n * f v.
Proof. induction n as [|n IH]; cbn [replicate tally]; [reflexivity|]. rewrite IH. lia. Qed.

Lemma start_inv maxParallel e : Inv network queue (callLLM_start queue maxParallel e).
Proof.
  constructor; cbn [callLLM_start index results progress workers total done_ ok_ fail].
  - apply length_replicate.
  - lia.
  - pose proof (workerCount_pos maxParallel).
    destruct (workerCount maxParallel); [lia|discriminate].
  - intros w i [[=] _]%lookup_replicate.
  - intros w1 w2 i [[=] _]%lookup_replicate.
  - intros i m Hi. lia.
  - intros w [[=] _]%lookup_replicate.
  - rewrite tally_replicate. cbn [awaitingOne isAwaiting]. lia.
  - reflexivity.
  - reflexivity.
Qed.

Lemma stepWorker_decreases w s s' :
  Inv network queue s -> stepWorker network queue w s = Some s' -> turnsBound queue s' < turnsBound queue s.
Proof.
  intros HI Hstep. unfold turnsBound.
  destruct (stepWorker_cases _ _ _ Hstep)
    as [(Hw & Hlt & Hi & _ & _ & Hws)
       |[(Hw & Hge & Hi & _ & _ & Hws)
        |(i & m & Hw & _ & Hi & _ & Hws & _)]];
    rewrite Hi, Hws.
  - pose proof (tally_insert turnsLeft _ w _ (Awaiting (index s)) Hw) as Ht.
    cbn [turnsLeft] in Ht. lia.
  - pose proof (tally_insert turnsLeft _ w _ Finished Hw) as Ht.
    cbn [turnsLeft] in Ht. lia.
  - pose proof (tally_insert turnsLeft _ w _ AtLoopHead Hw) as Ht.
    cbn [turnsLeft] in Ht. lia.
Qed.

(** A worker that has not returned can always take its turn. *)
Lemma stepWorker_enabled w v s :
  Inv network queue s -> workers s !! w = Some v -> v <> Finished ->
  exists s', stepWorker network queue w s = Some s'.
Proof.
  intros HI Hw Hv. unfold stepWorker. rewrite Hw.
  destruct v as [|i|]; [| |congruence].
  - destruct (index s <? length queue); eauto.
  - destruct (lookup_lt_is_Some_2 queue i) as [m Hm].
    { pose proof (inv_claimed _ _ _ HI _ _ Hw). pose proof (inv_index _ _ _ HI). lia. }
    rewrite Hm.
    destruct (callOpenAI (network m i) 3 500 (entropy s)) as [[result|err] e']; eauto.
Qed.

(** From every state between turns the workers can be brought to return. *)
Lemma run_completes n :
  forall s, Inv network queue s -> turnsBound queue s <= n ->
  exists schedule, allFinished (run network queue schedule s) = true.
Proof.
  induction n as [|n IH]; intros s HI Hn.
  - destruct (allFinished s) eqn:Hall; [exists []; exact Hall|].
    destruct (not_allFinished _ Hall) as (w & v & Hw & Hv).
    destruct (stepWorker_enabled _ _ _ HI Hw Hv) as [s' Hs'].
    pose proof (stepWorker_decreases _ _ _ HI Hs'). lia.
  - destruct (allFinished s) eqn:Hall; [exists []; exact Hall|].
    destruct (not_allFinished _ Hall) as (w & v & Hw & Hv).
    destruct (stepWorker_enabled _ _ _ HI Hw Hv) as [s' Hs'].
    pose proof (stepWorker_decreases _ _ _ HI Hs').
    destruct (IH s') as [schedule Hsched];
      [eapply stepWorker_preserves; eassumption|lia|].
    exists (w :: schedule). cbn [run]. rewrite Hs'. exact Hsched.
Qed.

(** What the state is once every worker has returned. *)
Lemma finished_state s :
  Inv network queue s -> allFinished s = true ->
  length (results s) = length queue
  /\ (forall i m, queue !! i = Some m -> results s !! i = Some (settledValue network m i))
  /\ done_ (progress s) = length queue
  /\ ok_ (progress s) + fail (progress s) = length queue.
Proof.
  intros HI Hall. unfold allFinished in Hall.
  assert (Hidx : index s = length queue).
  { destruct (workers s) as [|v ws] eqn:Hws; [destruct (inv_workers _ _ _ HI Hws)|].
    apply (inv_finished _ _ _ HI 0). rewrite Hws.
    rewrite (forallb_isFinished (v :: ws) 0 v Hall eq_refl). reflexivity. }
  assert (Hdone : done_ (progress s) = length queue).
  { pose proof (inv_done _ _ _ HI) as Hd.
    rewrite (tally_awaiting_zero _ Hall) in Hd. lia. }
  split; [apply (inv_results _ _ _ HI)|]. split; [|split; [exact Hdone|]].
  - intros i m Hq. apply (inv_slot _ _ _ HI); [|exact Hq|].
    + rewrite Hidx. eapply lookup_lt_Some, Hq.
    + intros w Hw. pose proof (forallb_isFinished _ _ _ Hall Hw). discriminate.
  - pose proof (inv_ok _ _ _ HI). lia.
Qed.

(** One more turn adds at most one to [done], and then exactly one to one
    of [ok] and [fail]. *)
Lemma stepWorker_progress w s :
  let p := progress s in
  let p' := progress (default s (stepWorker network queue w s)) in
  (done_ p' = done_ p /\ ok_ p' = ok_ p /\ fail p' = fail p)
  \/ (done_ p' = S (done_ p)
      /\ ((ok_ p' = S (ok_ p) /\ fail p' = fail p)
          \/ (ok_ p' = ok_ p /\ fail p' = S (fail p)))).
Proof.
  cbv zeta.
  destruct (stepWorker network queue w s) as [s'|] eqn:Hstep;
    cbn [default from_option]; unfold Datatypes.id; [|auto].
  destruct (stepWorker_cases _ _ _ Hstep)
    as [(_ & _ & _ & _ & Hp & _)
       |[(_ & _ & _ & _ & Hp & _)
        |(i & m & _ & _ & _ & _ & _ & _ & Hd & Hof)]];
    [rewrite Hp; auto..|right; auto].
Qed.

End DispatcherFacts.

(** ** The dispatcher *)

Example callLLM_last_first :
  callLLM (fun p : nat => p) demoNetwork "sk-test" [7; 8; 9]%nat 50
    (mkProgress 3 0 0 0) lastFirstSchedule entropyA
  = (Fulfilled ["r7"; "r8"; "r9"], mkProgress 3 3 3 0).
Proof. reflexivity. Qed.

(** C2: [callLLM] can always be brought to return, and whatever the order
    of the workers' turns, the sequence it returns has one entry per
    payload, entry [i] being the outcome of the request made for
    [payloads[i]]: the trimmed content of the response when the request
    got through and the response parsed, the empty string when it
    failed. *)
Theorem callLLM_positional {Payload Messages : Type}
    (buildLLMMessages : Payload -> Messages)
    (network : Messages -> nat -> nat -> FetchResult)
    apiKey (payloads : list Payload) maxParallel shown e :
  apiKey <> "" ->
  (exists schedule out,
     (callLLM buildLLMMessages network apiKey payloads maxParallel shown schedule e).1
     = Fulfilled out)
  /\ (forall schedule out,
        (callLLM buildLLMMessages network apiKey payloads maxParallel shown schedule e).1
        = Fulfilled out ->
        length out = length payloads
        /\ forall i p e', payloads !! i = Some p ->
             out !! i = Some
               match (fetchWithRetry (network (buildLLMMessages p) i) 500 3 e').1.1 with
               | Js.Returned res =>
                   match body res with
                   | Json (Some content) => Js.trim content
                   | _ => ""
                   end
               | Js.Thrown _ => ""
               end).
Proof.
  intros Hkey. apply truthy_nonempty in Hkey.
  unfold callLLM. rewrite Hkey. cbn [negb fst].
  set (queue := map buildLLMMessages payloads).
  pose proof (start_inv network queue maxParallel e) as H0.
  split.
  - destruct (run_completes network queue _ _ H0 (Nat.le_refl _)) as [schedule Hs].
    exists schedule, (results (run network queue schedule
                                 (callLLM_start queue maxParallel e))).
    rewrite Hs. reflexivity.
  - intros schedule out.
    destruct (allFinished _) eqn:Hall; [|discriminate]. intros [= <-].
    destruct (finished_state network queue _ (run_preserves network queue schedule _ H0) Hall)
      as (Hlen & Hslot & _).
    split; [rewrite Hlen; apply length_map|].
    intros i p e' Hp.
    rewrite (Hslot i (buildLLMMessages p)).
    + unfold settledValue. f_equal. apply slotValue_callOpenAI.
    + unfold queue. change (map buildLLMMessages payloads) with (buildLLMMessages <$> payloads).
      rewrite list_lookup_fmap, Hp. reflexivity.
Qed.

Lemma callLLM_positional_witness :
  (callLLM (fun p : nat => p) demoNetwork "sk-test" [7; 8; 9]%nat 50
     (mkProgress 3 0 0 0) lastFirstSchedule entropyA).1 = Fulfilled ["r7"; "r8"; "r9"]
  /\ length ["r7"; "r8"; "r9"] = length [7; 8; 9]%nat
  /\ ["r7"; "r8"; "r9"] !! 0%nat = Some "r7".
Proof.
  pose proof (proj2 (callLLM_positional (fun p : nat => p) demoNetwork "sk-test"
                       [7; 8; 9]%nat 50 (mkProgress 3 0 0 0) entropyA
                       ltac:(discriminate))
                lastFirstSchedule ["r7"; "r8"; "r9"] eq_refl) as [Hlen Hout].
  split; [reflexivity|]. split; [exact Hlen|].
  exact (Hout 0%nat 7%nat entropyZero eq_refl).
Defined.

(** C8: at every moment of a dispatch over [N] payloads the progress state
    has [total = N], [ok + fail = done] and [done <= N]; a turn leaves the
    counters alone or adds one to [done] and one to exactly one of [ok] and
    [fail], so that [done] never decreases; the run can always be brought
    to completion, and when [callLLM] has returned, [done = N] and
    [ok + fail = N]. *)
Theorem callLLM_progress_accounting {Payload Messages : Type}
    (buildLLMMessages : Payload -> Messages)
    (network : Messages -> nat -> nat -> FetchResult)
    apiKey (payloads : list Payload) maxParallel shown schedule e :
  apiKey <> "" ->
  (total (callLLM buildLLMMessages network apiKey payloads maxParallel shown schedule e).2
   = length payloads
   /\ (ok_ (callLLM buildLLMMessages network apiKey payloads maxParallel shown schedule e).2
       + fail (callLLM buildLLMMessages network apiKey payloads maxParallel shown schedule e).2
       = done_ (callLLM buildLLMMessages network apiKey payloads maxParallel shown schedule e).2)%nat
   /\ (done_ (callLLM buildLLMMessages network apiKey payloads maxParallel shown schedule e).2
       <= length payloads)%nat)
  /\ (forall w p p',
        p = (callLLM buildLLMMessages network apiKey payloads maxParallel shown schedule e).2 ->
        p' = (callLLM buildLLMMessages network apiKey payloads maxParallel shown
                (schedule ++ [w]) e).2 ->
        (done_ p' = done_ p /\ ok_ p' = ok_ p /\ fail p' = fail p)
        \/ (done_ p' = S (done_ p)
            /\ ((ok_ p' = S (ok_ p) /\ fail p' = fail p)
                \/ (ok_ p' = ok_ p /\ fail p' = S (fail p)))))
  /\ (exists rest out,
        (callLLM buildLLMMessages network apiKey payloads maxParallel shown
           (schedule ++ rest) e).1 = Fulfilled out)
  /\ (forall out p,
        callLLM buildLLMMessages network apiKey payloads maxParallel shown schedule e
        = (Fulfilled out, p) ->
        done_ p = length payloads
        /\ (ok_ p + fail p)%nat = length payloads).
Proof.
  intros Hkey. apply truthy_nonempty in Hkey.
  unfold callLLM. rewrite Hkey. cbn [negb fst snd].
  set (queue := map buildLLMMessages payloads).
  assert (Hq : length queue = length payloads) by apply length_map.
  pose proof (start_inv network queue maxParallel e) as H0.
  pose proof (run_preserves network queue schedule _ H0) as HI.
  split; [|split; [|split]].
  - rewrite <- Hq. split; [apply (inv_total _ _ _ HI)|].
    split; [apply (inv_ok _ _ _ HI)|].
    pose proof (inv_done _ _ _ HI). pose proof (inv_index _ _ _ HI). lia.
  - intros w p p' -> ->. rewrite run_app. cbn [run].
    apply stepWorker_progress.
  - destruct (run_completes network queue _ _ HI (Nat.le_refl _)) as [rest Hs].
    exists rest. eexists. rewrite run_app, Hs. reflexivity.
  - intros out p. destruct (allFinished _) eqn:Hall; [|discriminate].
    intros [= <- <-]. rewrite <- Hq.
    destruct (finished_state network queue _ HI Hall) as (_ & _ & Hd & Hof).
    auto.
Qed.

Lemma callLLM_progress_accounting_witness :
  callLLM (fun p : nat => p) demoNetwork "sk-test" [7; 8; 9]%nat 50
    (mkProgress 3 0 0 0) lastFirstSchedule entropyA
  = (Fulfilled ["r7"; "r8"; "r9"], mkProgress 3 3 3 0)
  /\ done_ (mkProgress 3 3 3 0) = length [7; 8; 9]%nat
  /\ (ok_ (mkProgress 3 3 3 0) + fail (mkProgress 3 3 3 0))%nat = length [7; 8; 9]%nat.
Proof.
  split; [reflexivity|].
  exact (proj2 (proj2 (proj2 (callLLM_progress_accounting (fun p : nat => p)
                  demoNetwork "sk-test" [7; 8; 9]%nat 50 (mkProgress 3 0 0 0)
                  lastFirstSchedule entropyA ltac:(discriminate))))
           ["r7"; "r8"; "r9"] (mkProgress 3 3 3 0) eq_refl).
Defined.

(** * Further properties *)

(** ** The tokenizer *)

Lemma allChars_trimStart P s : allChars P s = true -> allChars P (Js.trimStart s) = true.
Proof.
  induction s as [|c r IH]; cbn [allChars Js.trimStart]; [trivial|].
  intros [Hc Hr]%andb_true_iff. destruct (Js.isWhiteSpace c); [auto|].
  cbn [allChars]. rewrite Hc, Hr. reflexivity.
Qed.

Lemma allChars_trimEnd P s : allChars P s = true -> allChars P (Js.trimEnd s) = true.
Proof.
  induction s as [|c r IH]; cbn [allChars Js.trimEnd]; [trivial|].
  intros [Hc Hr]%andb_true_iff. specialize (IH Hr).
  destruct (Js.trimEnd r) as [|c' r'].
  - destruct (Js.isWhiteSpace c); cbn [allChars]; rewrite ?Hc; reflexivity.
  - cbn [allChars] in *. rewrite Hc, IH. reflexivity.
Qed.

Lemma allChars_trim P s : allChars P s = true -> allChars P (Js.trim s) = true.
Proof. intros H. apply allChars_trimEnd, allChars_trimStart, H. Qed.

Lemma split_pieces_no_separator text piece :
  piece ∈ Js.split text -> allChars (fun c => negb (Js.isSeparator c)) piece = true.
Proof.
  revert piece; induction text as [|c r IH]; cbn [Js.split]; intros piece.
  - intros Hp%list_elem_of_singleton. subst piece. reflexivity.
  - destruct (Js.isSeparator c) eqn:Hc.
    + intros [Hp|Hp]%elem_of_cons; [subst piece; reflexivity|auto].
    + destruct (Js.split r) as [|h t] eqn:Hs.
      * intros Hp%list_elem_of_singleton. subst piece. cbn. rewrite Hc. reflexivity.
      * intros [Hp|Hp]%elem_of_cons.
        -- subst piece. cbn [allChars]. rewrite Hc. cbn. apply IH. left.
        -- apply IH. right. exact Hp.
Qed.

Lemma filterUnseen_fresh seen l :
  NoDup (map Js.toLowerCase (filterUnseen seen l))
  /\ forall x, x ∈ filterUnseen seen l -> Js.toLowerCase x ∉ seen.
Proof.
  revert seen; induction l as [|s r IH]; intros seen; cbn [filterUnseen].
  - split; [constructor|]. intros x H. inversion H.
  - destruct (decide (Js.toLowerCase s ∈ seen)) as [Hin|Hin]; [apply IH|].
    destruct (IH ({[Js.toLowerCase s]} ∪ seen)) as [Hnd Hfresh]. split.
    + cbn [map]. constructor; [|exact Hnd].
      intros (x & Hx & Hxin)%(list_elem_of_fmap_1 (A:=string)).
      apply Hfresh in Hxin. set_solver.
    + intros x [->|Hx]%elem_of_cons; [exact Hin|].
      apply Hfresh in Hx. set_solver.
Qed.

Lemma filterUnseen_complete seen l x :
  x ∈ l -> Js.toLowerCase x ∉ seen ->
  exists t, t ∈ filterUnseen seen l /\ Js.toLowerCase t = Js.toLowerCase x.
Proof.
  revert seen; induction l as [|s r IH]; intros seen Hx Hseen; [inversion Hx|].
  cbn [filterUnseen].
  destruct (decide (Js.toLowerCase s ∈ seen)) as [Hin|Hin].
  - apply elem_of_cons in Hx as [->|Hx]; [contradiction|]. apply IH; assumption.
  - destruct (decide (Js.toLowerCase s = Js.toLowerCase x)) as [Heq|Hne].
    + exists s. split; [left|exact Heq].
    + apply elem_of_cons in Hx as [->|Hx]; [congruence|].
      destruct (IH ({[Js.toLowerCase s]} ∪ seen) Hx) as (t & Ht & Hlt); [set_solver|].
      exists t. split; [right; exact Ht|exact Hlt].
Qed.

Lemma filterUnseen_sublist seen l : filterUnseen seen l `sublist_of` l.
Proof.
  revert seen; induction l as [|s r IH]; intros seen; cbn [filterUnseen];
    [constructor|].
  destruct (decide (Js.toLowerCase s ∈ seen)); [apply sublist_cons|apply sublist_skip];
    apply IH.
Qed.

Lemma filterUnseen_id seen l :
  NoDup (map Js.toLowerCase l) ->
  (forall x, x ∈ l -> Js.toLowerCase x ∉ seen) ->
  filterUnseen seen l = l.
Proof.
  revert seen; induction l as [|s r IH]; intros seen Hnd Hfresh; [reflexivity|].
  cbn [filterUnseen]. cbn [map] in Hnd. apply NoDup_cons in Hnd as [Hs Hnd].
  destruct (decide (Js.toLowerCase s ∈ seen)) as [Hin|Hin].
  - destruct (Hfresh s); [left|exact Hin].
  - f_equal. apply IH; [exact Hnd|].
    intros x Hx. apply not_elem_of_union. split; [|apply Hfresh; right; exact Hx].
    intros Heq%elem_of_singleton. apply Hs. rewrite <- Heq.
    apply (list_elem_of_fmap_2 (A:=string)). exact Hx.
Qed.

(** What a list of candidates looks like: entries trimmed, not empty, and
    pairwise different when case is ignored. *)
Lemma normalize_wellformed arr :
  Forall (fun t => t <> "" /\ Js.trim t = t) (normalizeUniqueCaseInsensitive arr)
  /\ NoDup (map Js.toLowerCase (normalizeUniqueCaseInsensitive arr)).
Proof.
  split.
  - apply Forall_forall. intros t (Hne & s & _ & ->)%normalize_elem.
    split; [exact Hne|apply trim_idem].
  - apply filterUnseen_fresh.
Qed.

Lemma map_trim_id l : Forall (fun t => t <> "" /\ Js.trim t = t) l -> map Js.trim l = l.
Proof. induction 1 as [|t r [_ Ht] _ IH]; cbn [map]; [reflexivity|]. rewrite Ht, IH. reflexivity. Qed.

Lemma filter_truthy_id l :
  Forall (fun t => t <> "" /\ Js.trim t = t) l ->
  filter (fun s => Is_true (Js.truthy s)) l = l.
Proof.
  induction 1 as [|t r [Ht _] _ IH]; [reflexivity|].
  rewrite filter_cons_True; [rewrite IH; reflexivity|].
  apply truthy_nonempty in Ht. rewrite Ht. exact I.
Qed.

Lemma normalize_fixpoint l :
  Forall (fun t => t <> "" /\ Js.trim t = t) l ->
  NoDup (map Js.toLowerCase l) ->
  normalizeUniqueCaseInsensitive l = l.
Proof.
  intros Hwf Hnd. unfold normalizeUniqueCaseInsensitive.
  rewrite map_trim_id, filter_truthy_id by exact Hwf.
  apply filterUnseen_id; [exact Hnd|]. intros x _. apply not_elem_of_empty.
Qed.

Lemma toList_normalize text :
  toList text = normalizeUniqueCaseInsensitive (Js.split text).
Proof.
  unfold toList, normalizeUniqueCaseInsensitive.
  destruct text as [|c r]; reflexivity.
Qed.

(** X1: the tokens of a list text are not empty, carry no white space at
    either end, contain neither a comma nor a line feed, and are pairwise
    different when case is ignored. *)
Theorem toList_tokens_wellformed text :
  Forall (fun t => t <> "" /\ Js.trim t = t
                   /\ allChars (fun c => negb (Js.isSeparator c)) t = true)
         (toList text)
  /\ NoDup (map Js.toLowerCase (toList text)).
Proof.
  rewrite toList_normalize. split; [|apply normalize_wellformed].
  apply Forall_forall. intros t Ht.
  destruct (normalize_elem _ _ Ht) as (Hne & piece & Hpiece & ->).
  split; [exact Hne|]. split; [apply trim_idem|].
  apply allChars_trim, (split_pieces_no_separator text), Hpiece.
Qed.

(** X2: the tokenizer loses nothing but blanks and repetitions. Every piece
    between separators that is not blank is represented by a token equal to
    it up to case, and the tokens come in the order of the pieces. *)
Theorem toList_complete text :
  (forall piece, piece ∈ Js.split text -> Js.trim piece <> "" ->
     exists t, t ∈ toList text
               /\ Js.toLowerCase t = Js.toLowerCase (Js.trim piece))
  /\ toList text `sublist_of` map Js.trim (Js.split text).
Proof.
  rewrite toList_normalize. unfold normalizeUniqueCaseInsensitive. split.
  - intros piece Hp Hne. apply filterUnseen_complete; [|apply not_elem_of_empty].
    apply list_elem_of_filter. split.
    + apply truthy_nonempty in Hne. rewrite Hne. exact I.
    + apply (list_elem_of_fmap_2 (A:=string)). exact Hp.
  - etransitivity; [apply filterUnseen_sublist|apply sublist_filter].
Qed.

Lemma toList_complete_witness :
  exists t, t ∈ toList "Wide shot, close-up,  wide SHOT "
            /\ Js.toLowerCase t = Js.toLowerCase (Js.trim "  wide SHOT ").
Proof.
  refine (proj1 (toList_complete "Wide shot, close-up,  wide SHOT ")
            "  wide SHOT " _ ltac:(discriminate)).
  change (Js.split "Wide shot, close-up,  wide SHOT ")
    with ["Wide shot"; " close-up"; "  wide SHOT "].
  apply list_elem_of_further, list_elem_of_further, list_elem_of_here.
Defined.

(** ** Candidate resolution *)

(** X3: whatever the pool, the resolved candidates are not empty, trimmed
    and pairwise different when case is ignored; resolving them again
    changes nothing. *)
Theorem getCandidates_wellformed pool :
  Forall (fun c => c <> "" /\ Js.trim c = c) (getCandidates pool)
  /\ NoDup (map Js.toLowerCase (getCandidates pool))
  /\ normalizeUniqueCaseInsensitive (getCandidates pool) = getCandidates pool.
Proof.
  unfold getCandidates.
  destruct (normalize_wellformed
    (match selections pool with
     | Some sel =>
         if (0 <? length sel)%nat then sel
         else match listArray pool with
              | Some a => a
              | None => toList (default "" (listText pool))
              end
     | None => match listArray pool with
               | Some a => a
               | None => toList (default "" (listText pool))
               end
     end)) as [Hwf Hnd].
  split; [exact Hwf|]. split; [exact Hnd|].
  apply normalize_fixpoint; assumption.
Qed.

(** X4: without selections and without a list array, the candidates are
    the tokens of the list text: the second normalisation finds nothing to
    do. *)
Theorem getCandidates_without_selections pool :
  selections pool = None \/ selections pool = Some [] ->
  listArray pool = None ->
  getCandidates pool = toList (default "" (listText pool)).
Proof.
  intros Hsel Harr. unfold getCandidates. rewrite Harr.
  assert (Hn : normalizeUniqueCaseInsensitive (toList (default "" (listText pool)))
               = toList (default "" (listText pool))).
  { rewrite toList_normalize.
    destruct (normalize_wellformed (Js.split (default "" (listText pool)))) as [Hwf Hnd].
    apply normalize_fixpoint; assumption. }
  destruct Hsel as [->| ->]; exact Hn.
Qed.

Lemma getCandidates_without_selections_witness :
  getCandidates threePool = toList "35mm, 50mm, 85mm".
Proof.
  exact (getCandidates_without_selections threePool (or_introl eq_refl) eq_refl).
Defined.

(** ** The generator *)

Lemma toUint32_wrap z k : Js.toUint32 (z + 4294967296 * k) = Js.toUint32 z.
Proof.
  unfold Js.toUint32.
  replace (z + 4294967296 * k) with (z + k * 4294967296) by lia.
  apply Z.mod_add. lia.
Qed.

(** The state of a closure after [n] calls, as long as it is exact. *)
Lemma mulberry32_advance_exact n : forall t,
  0 <= t -> t + Z.of_nat n * 1831565813 <= 9007199254740992 ->
  Nat.iter n mulberry32_advance t = t + Z.of_nat n * 1831565813.
Proof.
  induction n as [|n IH]; intros t Ht Hn; [cbn; lia|].
  change (Nat.iter (S n) mulberry32_advance t)
    with (mulberry32_advance (Nat.iter n mulberry32_advance t)).
  rewrite IH by lia.
  unfold mulberry32_advance, mulberry32_next. cbn [snd].
  rewrite add_exact by lia. lia.
Qed.

(** A double of 2^84 or more absorbs an addend below 2^31: its last bit
    weighs 2^32 or more. *)
Lemma roundDouble_absorbs t c :
  Js.roundDouble t = t -> 2 ^ 84 <= t -> 0 <= c < 2147483648 ->
  Js.roundDouble (t + c) = t.
Proof.
  intros Hd Ht Hc.
  assert (Hpos : 0 < t) by (pose proof (Z.pow_pos_nonneg 2 84); lia).
  pose proof (Z.log2_spec t Hpos) as [Hlo Hhi].
  assert (He : 84 <= Z.log2 t) by (apply Z.log2_le_pow2; lia).
  set (e := Z.log2 t - 52) in *.
  assert (H2e : 2 ^ Z.log2 t = 2 ^ 52 * 2 ^ e).
  { rewrite <- Z.pow_add_r by lia. f_equal. lia. }
  assert (H2e' : 2 ^ Z.succ (Z.log2 t) = 2 ^ 53 * 2 ^ e).
  { rewrite <- Z.pow_add_r by lia. f_equal. lia. }
  assert (Hhalf : 2 ^ e = 2 * 2 ^ (e - 1)).
  { rewrite <- Z.pow_succ_r by lia. f_equal. lia. }
  assert (H31 : 2147483648 <= 2 ^ (e - 1)).
  { change 2147483648 with (2 ^ 31). apply Z.pow_le_mono_r; lia. }
  (* [t] is a multiple of [2^e] *)
  assert (Hmul : exists q, t = q * 2 ^ e).
  { unfold Js.roundDouble in Hd. rewrite Z.abs_eq in Hd by lia. fold e in Hd.
    destruct (Z.leb_spec e 0); [lia|].
    rewrite Z.sgn_pos, Z.mul_1_l in Hd by exact Hpos. eexists. symmetry. exact Hd. }
  destruct Hmul as [q Hq].
  assert (Hqr : 2 ^ 52 <= q < 2 ^ 53) by nia.
  assert (Hlog : Z.log2 (t + c) = Z.log2 t).
  { apply Z.log2_unique; [lia|]. split; [lia|]. rewrite H2e'. nia. }
  unfold Js.roundDouble. rewrite Z.abs_eq, Hlog by lia. fold e.
  destruct (Z.leb_spec e 0); [lia|].
  assert (Hdiv : (t + c) / 2 ^ e = q).
  { symmetry. apply (Z.div_unique (t + c) (2 ^ e) q c); lia. }
  assert (Hmod : (t + c) mod 2 ^ e = c).
  { symmetry. apply (Z.mod_unique (t + c) (2 ^ e) q c); lia. }
  rewrite Hdiv, Hmod.
  destruct (Z.ltb_spec c (2 ^ (e - 1))); [|lia].
  rewrite Z.sgn_pos by lia. lia.
Qed.

(** The state leaves the exact sum soon after 2^53: from the seed 0, the
    call after the 4917758th rounds an odd sum to an even state, and returns
    a value that is not the one of the mulberry32 algorithm. *)
Example mulberry32_state_rounds :
  Nat.iter (Z.to_nat 4917758) mulberry32_advance 0 = 9007197429407254
  /\ 9007197429407254 + 1831565813 = 9007199260973067
  /\ mulberry32_next 9007197429407254 = (2430946484 # 4294967296, 9007199260973068)
  /\ spec_generator 1 (Js.toUint32 9007197429407254) = [3767445004 # 4294967296].
Proof.
  split; [|split; [|split]; reflexivity].
  rewrite mulberry32_advance_exact by lia. rewrite Z2Nat.id by lia. reflexivity.
Qed.

(** X5: [mulberry32] reads its seed modulo 2^32, but the state of a closure
    is never wrapped. After [n] calls it is the start plus [n] increments,
    exactly, as long as that stays within 2^53, and so long the values are
    those of the mulberry32 algorithm on the state modulo 2^32. A state of
    2^84 or more is not changed by a call any more: from there on the
    closure returns one and the same value. *)
Theorem mulberry32_state_not_wrapped seed k n t :
  mulberry32 (seed + 4294967296 * k) = mulberry32 seed
  /\ (0 <= t -> t + Z.of_nat n * 1831565813 <= 9007199254740992 ->
      Nat.iter n mulberry32_advance t = t + Z.of_nat n * 1831565813
      /\ mulberry32_draws n t = spec_generator n (Js.toUint32 t))
  /\ (Js.roundDouble t = t -> 2 ^ 84 <= t ->
      mulberry32_advance t = t
      /\ mulberry32_draws n t
         = replicate n (mulberry32_numerator t # 4294967296)).
Proof.
  split; [|split].
  - unfold mulberry32, mulberry32_init. rewrite !ushr_0, toUint32_wrap. reflexivity.
  - intros Ht Hn. split.
    + apply mulberry32_advance_exact; assumption.
    + apply mulberry32_draws_spec; assumption.
  - intros Hd Ht.
    assert (Hstuck : Js.add t 1831565813 = t)
      by (apply roundDouble_absorbs; [assumption|assumption|lia]).
    split.
    + unfold mulberry32_advance, mulberry32_next. cbn [snd]. exact Hstuck.
    + induction n as [|n IH]; [reflexivity|].
      cbn [mulberry32_draws replicate]. unfold mulberry32_next.
      rewrite Hstuck. cbn zeta. rewrite IH. reflexivity.
Qed.

Lemma makeSectionRng_sum s b s' b' sectionId :
  s <> -1 -> s' <> -1 -> s + b = s' + b' ->
  makeSectionRng s b sectionId = makeSectionRng s' b' sectionId.
Proof.
  intros Hs Hs' Hsum. unfold makeSectionRng.
  destruct (Z.eqb_spec s (-1)); [contradiction|].
  destruct (Z.eqb_spec s' (-1)); [contradiction|].
  rewrite !orElse_0. unfold Js.add. rewrite Hsum. reflexivity.
Qed.

(** X6: the run seed and the batch index enter the generator through their
    sum only. For a randomized pool, run seed [s + 1] draws at batch item
    [b] what run seed [s] draws at batch item [b + 1]. *)
Theorem pickOneValue_seed_batch_alias pool s b sectionId e :
  isRandomized pool = true -> s <> -1 -> s <> -2 ->
  makeSectionRng (s + 1) b sectionId = makeSectionRng s (b + 1) sectionId
  /\ pickOneValue pool (s + 1) b sectionId e = pickOneValue pool s (b + 1) sectionId e.
Proof.
  intros Hr Hs Hs'.
  assert (Hg : makeSectionRng (s + 1) b sectionId = makeSectionRng s (b + 1) sectionId)
    by (apply makeSectionRng_sum; lia).
  split; [exact Hg|]. unfold pickOneValue. rewrite Hr, Hg. reflexivity.
Qed.

Lemma pickOneValue_seed_batch_alias_witness :
  pickOneValue randomPool 8 0 "sky" entropyA = pickOneValue randomPool 7 1 "sky" entropyA.
Proof.
  exact (proj2 (pickOneValue_seed_batch_alias randomPool 7 0 "sky" entropyA eq_refl
                  ltac:(discriminate) ltac:(discriminate))).
Defined.

(** X7: [pickOne] answers the empty string for an empty array without
    calling the generator; otherwise it calls the generator once and
    returns a member of the array. The randomized branch of [pickOneValue]
    is [pickOne] over the candidates with the section's generator. *)
Theorem pickOne_closed arr g e :
  (arr = [] -> pickOne arr g e = (Some "", g, e))
  /\ (arr <> [] ->
      exists c, c ∈ arr /\
        pickOne arr g e = (Some c, (callRng g e).1.2, (callRng g e).2))
  /\ (forall pool seedBase batchIndex sectionId,
        isRandomized pool = true ->
        pickOneValue pool seedBase batchIndex sectionId e =
        ((pickOne (getCandidates pool)
            (makeSectionRng seedBase batchIndex sectionId) e).1.1,
         (pickOne (getCandidates pool)
            (makeSectionRng seedBase batchIndex sectionId) e).2)).
Proof.
  split; [|split].
  - intros ->. reflexivity.
  - intros Hne. unfold pickOne.
    destruct (Nat.eqb_spec (length arr) 0) as [Hlen|Hlen];
      [destruct arr; [congruence|discriminate]|].
    pose proof (callRng_unitQ g e) as Hx.
    destruct (callRng g e) as [[x g'] e']. cbn [fst snd] in *.
    destruct (index_in_range arr (Js.floorMul x (Z.of_nat (length arr))))
      as (c & Hc & Hin); [apply floorMul_range; [exact Hx|lia]|].
    exists c. rewrite Hc. auto.
  - intros pool seedBase batchIndex sectionId Hr. unfold pickOneValue, pickOne.
    rewrite Hr. destruct (length (getCandidates pool) =? 0)%nat; [reflexivity|].
    destruct (callRng (makeSectionRng seedBase batchIndex sectionId) e) as [[x g'] e'].
    reflexivity.
Qed.

Lemma pickOne_closed_witness :
  exists c, c ∈ ["a"; "b"] /\
    pickOne ["a"; "b"] (mulberry32 5) entropyA
    = (Some c, (callRng (mulberry32 5) entropyA).1.2, (callRng (mulberry32 5) entropyA).2).
Proof.
  exact (proj1 (proj2 (pickOne_closed ["a"; "b"] (mulberry32 5) entropyA))
           ltac:(discriminate)).
Defined.

(** ** Arrays *)

Lemma delete_insert_same {A} (l : list A) i x : delete i (<[i := x]> l) = delete i l.
Proof.
  revert i; induction l as [|y r IH]; intros [|i]; cbn; try reflexivity.
  f_equal. apply IH.
Qed.

Lemma insert_Permutation {A} (l : list A) i x :
  (i < length l)%nat -> <[i := x]> l ≡ₚ x :: delete i l.
Proof.
  intros Hi. rewrite <- (delete_insert_same l i x).
  apply delete_Permutation, list_lookup_insert_eq, Hi.
Qed.

Lemma index_nat {A} (l : list A) n : Js.index l (Z.of_nat n) = l !! n.
Proof.
  unfold Js.index. destruct (Z.ltb_spec (Z.of_nat n) 0); [lia|].
  rewrite Nat2Z.id. reflexivity.
Qed.

Lemma assign_nat {A} (l : list (option A)) n v :
  (n < length l)%nat -> Js.assign l (Z.of_nat n) v = <[n := v]> l.
Proof.
  intros Hn. unfold Js.assign. destruct (Z.ltb_spec (Z.of_nat n) 0); [lia|].
  rewrite Nat2Z.id. destruct (Nat.ltb_spec n (length l)); [reflexivity|lia].
Qed.

Lemma insert_swap_Permutation {A} (l : list A) i j a b :
  l !! i = Some a -> l !! j = Some b -> <[j := a]> (<[i := b]> l) ≡ₚ l.
Proof.
  intros Hi Hj.
  pose proof (lookup_lt_Some _ _ _ Hi) as Hli.
  pose proof (lookup_lt_Some _ _ _ Hj) as Hlj.
  destruct (decide (i = j)) as [->|Hne].
  - assert (a = b) as -> by congruence.
    rewrite list_insert_insert_eq, list_insert_id by exact Hj. reflexivity.
  - assert (Hj' : <[i := b]> l !! j = Some b)
      by (rewrite list_lookup_insert_ne by exact Hne; exact Hj).
    etransitivity;
      [apply insert_Permutation; rewrite length_insert; exact Hlj|].
    etransitivity; [|symmetry; apply (delete_Permutation l i a Hi)].
    apply Permutation_skip.
    apply (Permutation_cons_inv (a := b)).
    etransitivity; [symmetry; apply (delete_Permutation _ j b Hj')|].
    apply insert_Permutation, Hli.
Qed.

Lemma insert_swap_back {A} (l : list A) i j a b :
  l !! i = Some a -> l !! j = Some b ->
  <[j := b]> (<[i := a]> (<[j := a]> (<[i := b]> l))) = l.
Proof.
  intros Hi Hj. apply list_eq. intros n.
  pose proof (lookup_lt_Some _ _ _ Hi). pose proof (lookup_lt_Some _ _ _ Hj).
  rewrite !list_lookup_insert, !length_insert.
  repeat case_decide; subst; intuition (congruence || lia).
Qed.

(** A swap of two entries in range, on a copy of an array without
    [undefined] entries. *)
Lemma swap_Some {A} (l : list A) i j a b :
  l !! i = Some a -> l !! j = Some b ->
  Js.swap (Some <$> l) (Z.of_nat i) (Z.of_nat j)
  = Some <$> <[j := a]> (<[i := b]> l).
Proof.
  intros Hi Hj. unfold Js.swap.
  pose proof (lookup_lt_Some _ _ _ Hi). pose proof (lookup_lt_Some _ _ _ Hj).
  rewrite !index_nat, !list_lookup_fmap, Hi, Hj. cbn.
  rewrite (assign_nat (Some <$> l) i) by (rewrite length_fmap; assumption).
  rewrite assign_nat by (rewrite length_insert, length_fmap; assumption).
  rewrite !list_fmap_insert. reflexivity.
Qed.

(** ** The balanced plan *)






(** X9: a negative batch size is treated unevenly. With at most one
    candidate the plan is built by [Array(batchSize)], which throws a
    [RangeError]; with two candidates or more it is built by a counting
    loop, which returns the empty plan. *)
Theorem makeBalancedPlan_negative_batch pool seedBase sectionId batchSize e :
  batchSize < 0 ->
  ((length (getCandidates pool) <= 1)%nat ->
     makeBalancedPlan pool seedBase sectionId batchSize e
     = (Js.Thrown "Invalid array length", e))
  /\ ((2 <= length (getCandidates pool))%nat ->
      (makeBalancedPlan pool seedBase sectionId batchSize e).1 = Js.Returned []).
Proof.
  intros HB. unfold makeBalancedPlan.
  assert (Hfill : forall v : option string,
            Js.arrayFill batchSize v = Js.Thrown "Invalid array length").
  { intros v. unfold Js.arrayFill. destruct (Z.ltb_spec batchSize 0); [reflexivity|lia]. }
  assert (Hcyc : forall order, cycle order batchSize = []).
  { intros order. unfold cycle.
    assert (Z.to_nat batchSize = 0%nat) as -> by lia. reflexivity. }
  destruct (getCandidates pool) as [|c1 [|c2 l]]; cbn [length Nat.eqb]; split;
    try (intros; lia); intros _; rewrite ?Hfill; try reflexivity.
  destruct (isRandomized pool); [|rewrite Hcyc; reflexivity].
  destruct (shuffleFrom _ _ _ e) as [[order g'] e']. rewrite Hcyc. reflexivity.
Qed.

Lemma makeBalancedPlan_negative_batch_witness :
  makeBalancedPlan pinnedPool 7 "lens" (-2) entropyA
  = (Js.Thrown "Invalid array length", entropyA)
  /\ (makeBalancedPlan threePool 7 "lens" (-2) entropyA).1 = Js.Returned [].
Proof.
  split.
  - exact (proj1 (makeBalancedPlan_negative_batch pinnedPool 7 "lens" (-2) entropyA
                    ltac:(lia)) ltac:(vm_compute; lia)).
  - exact (proj2 (makeBalancedPlan_negative_batch threePool 7 "lens" (-2) entropyA
                    ltac:(lia)) ltac:(vm_compute; lia)).
Defined.

(** ** Payloads *)

Lemma index_Some_elem {A} (l : list A) i c : Js.index l i = Some c -> c ∈ l.
Proof.
  unfold Js.index. destruct (i <? 0); [discriminate|].
  apply list_elem_of_lookup_2.
Qed.

Lemma pickOneValue_Some_member pool seedBase batchIndex sectionId e c :
  (pickOneValue pool seedBase batchIndex sectionId e).1 = Some c ->
  c = "" \/ c ∈ getCandidates pool.
Proof.
  unfold pickOneValue.
  destruct (length (getCandidates pool) =? 0)%nat; [intros [= <-]; left; reflexivity|].
  destruct (isRandomized pool).
  - destruct (callRng _ e) as [[x g'] e']. cbn [fst].
    intros H%index_Some_elem. right. exact H.
  - cbn [fst]. intros H%index_Some_elem. right. exact H.
Qed.

Lemma pickOneValue_member pool seedBase batchIndex sectionId e :
  0 <= batchIndex -> getCandidates pool <> [] ->
  exists c, c ∈ getCandidates pool
            /\ (pickOneValue pool seedBase batchIndex sectionId e).1 = Some c.
Proof.
  intros Hb Hne. unfold pickOneValue.
  destruct (Nat.eqb_spec (length (getCandidates pool)) 0) as [Hlen|Hlen];
    [destruct (getCandidates pool); [congruence|discriminate]|].
  destruct (isRandomized pool).
  - pose proof (callRng_unitQ (makeSectionRng seedBase batchIndex sectionId) e) as Hx.
    destruct (callRng _ e) as [[x g'] e']. cbn [fst] in *.
    destruct (index_in_range (getCandidates pool)
                (Js.floorMul x (Z.of_nat (length (getCandidates pool)))))
      as (c & Hc & Hin); [apply floorMul_range; [exact Hx|lia]|].
    eauto.
  - cbn [fst].
    destruct (index_in_range (getCandidates pool)
                (Js.rem batchIndex (Z.of_nat (length (getCandidates pool)))))
      as (c & Hc & Hin); [|eauto].
    unfold Js.rem. rewrite Z.rem_mod_nonneg by lia. apply Z.mod_pos_bound. lia.
Qed.

Lemma candidate_trimmed pool c :
  c ∈ getCandidates pool -> c <> "" /\ Js.trim c = c.
Proof.
  unfold getCandidates. intros Hc.
  match type of Hc with
  | c ∈ normalizeUniqueCaseInsensitive ?base =>
      destruct (normalize_wellformed base) as [Hwf _]
  end.
  rewrite Forall_forall in Hwf. apply Hwf, Hc.
Qed.

(** One section either leaves the payload alone or sets its title to a
    candidate of its pool. *)
Lemma buildOne_section_cases batchIndex seedBase payload e section :
  (buildOne_section batchIndex seedBase (payload, e) section).1 = payload
  \/ exists v,
       (buildOne_section batchIndex seedBase (payload, e) section).1
       = <[title section := v]> payload
       /\ Js.trim (title section) <> ""
       /\ v ∈ getCandidates (poolOfSection section).
Proof.
  unfold buildOne_section.
  destruct (Js.truthy (Js.trim (title section))) eqn:Ht; cbn [negb]; [|left; reflexivity].
  apply truthy_nonempty in Ht.
  pose proof (pickOneValue_Some_member (poolOfSection section) seedBase batchIndex
                (id section) e) as Hm.
  destruct (pickOneValue _ _ _ _ e) as [[c|] e']; cbn [fmap option_fmap option_map fst] in *;
    [|left; reflexivity].
  destruct (Js.truthy (Js.trim c)) eqn:Hc; [|left; reflexivity].
  destruct (Hm c eq_refl) as [->|Hin]; [discriminate|].
  destruct (candidate_trimmed _ _ Hin) as [_ Htrim].
  right. exists c. rewrite Htrim. auto.
Qed.

Lemma buildOne_fold_sound batchIndex seedBase (Q : string -> string -> Prop) sections :
  forall acc,
    (forall k v, acc.1 !! k = Some v -> Q k v) ->
    (forall section v, section ∈ sections ->
       Js.trim (title section) <> "" ->
       v ∈ getCandidates (poolOfSection section) -> Q (title section) v) ->
    forall k v,
      (fold_left (buildOne_section batchIndex seedBase) sections acc).1 !! k = Some v ->
      Q k v.
Proof.
  induction sections as [|section r IH]; intros acc Hacc Hsec; [exact Hacc|].
  cbn [fold_left]. apply IH.
  - destruct acc as [payload e].
    destruct (buildOne_section_cases batchIndex seedBase payload e section)
      as [->|(v & -> & Ht & Hv)]; [exact Hacc|].
    intros k w. rewrite lookup_insert. case_decide as Hk.
    + intros [= <-]. subst k. apply Hsec; [left|assumption..].
    + apply Hacc.
  - intros s v Hs. apply Hsec. right. exact Hs.
Qed.

(** X10: every entry of a payload comes from a section. Its key is the
    title of a section whose title is not blank, and its value is one of
    the candidates of that section, hence trimmed and not empty. *)
Theorem buildOne_payload_sound sections batchIndex seedBase e k v :
  (buildOne sections batchIndex seedBase e).1 !! k = Some v ->
  v <> "" /\ Js.trim v = v
  /\ exists section, section ∈ sections /\ title section = k
       /\ Js.trim k <> "" /\ v ∈ getCandidates (poolOfSection section).
Proof.
  unfold buildOne.
  apply (buildOne_fold_sound batchIndex seedBase
           (fun k v => v <> "" /\ Js.trim v = v
              /\ exists section, section ∈ sections /\ title section = k
                   /\ Js.trim k <> "" /\ v ∈ getCandidates (poolOfSection section))).
  - intros k' v'. cbn [fst]. rewrite lookup_empty. discriminate.
  - intros section w Hs Ht Hw.
    destruct (candidate_trimmed _ _ Hw) as [Hne Htrim].
    split; [exact Hne|]. split; [exact Htrim|]. exists section. auto.
Qed.

Lemma buildOne_payload_sound_witness :
  "35mm" <> "" /\ Js.trim "35mm" = "35mm"
  /\ exists section, section ∈ demoSections /\ title section = "Lens"
       /\ Js.trim "Lens" <> "" /\ "35mm" ∈ getCandidates (poolOfSection section).
Proof.
  refine (buildOne_payload_sound demoSections 0 7 entropyA "Lens" "35mm" _).
  vm_compute. reflexivity.
Defined.

Lemma buildOne_fold_keeps batchIndex seedBase k sections :
  forall acc,
    is_Some (acc.1 !! k) ->
    is_Some ((fold_left (buildOne_section batchIndex seedBase) sections acc).1 !! k).
Proof.
  induction sections as [|section r IH]; intros acc Hacc; [exact Hacc|].
  cbn [fold_left]. apply IH. destruct acc as [payload e].
  destruct (buildOne_section_cases batchIndex seedBase payload e section)
    as [->|(v & -> & _)]; [exact Hacc|].
  rewrite lookup_insert. case_decide; [eauto|exact Hacc].
Qed.

(** X11: a section is never dropped without reason. When its title is not
    blank and its pool has a candidate, the payload of every batch item has
    an entry under its title. (The title [__proto__] is left out: an
    assignment to that key of a JavaScript object creates no entry, which
    the map of the model does not reproduce.) *)
Theorem buildOne_payload_complete sections batchIndex seedBase e section :
  0 <= batchIndex -> section ∈ sections ->
  Js.trim (title section) <> "" ->
  title section <> "__proto__" ->
  getCandidates (poolOfSection section) <> [] ->
  is_Some ((buildOne sections batchIndex seedBase e).1 !! title section).
Proof.
  intros Hb Hin Ht _ Hc. unfold buildOne. generalize ((∅, e) : gmap string string * Entropy).
  induction sections as [|s r IH]; intros acc; [inversion Hin|].
  cbn [fold_left]. apply elem_of_cons in Hin as [<-|Hin]; [|apply IH, Hin].
  apply buildOne_fold_keeps. destruct acc as [payload e1].
  unfold buildOne_section. apply truthy_nonempty in Ht. rewrite Ht. cbn [negb].
  destruct (pickOneValue_member (poolOfSection section) seedBase batchIndex
              (id section) e1 Hb Hc) as (c & Hcin & Hpick).
  destruct (pickOneValue _ _ _ _ e1) as [val e']. cbn [fst] in Hpick. subst val.
  cbn [fmap option_fmap option_map].
  destruct (candidate_trimmed _ _ Hcin) as [Hne Htrim]. rewrite Htrim.
  apply truthy_nonempty in Hne. rewrite Hne. cbn [fst].
  rewrite lookup_insert_eq. eauto.
Qed.

Lemma buildOne_payload_complete_witness :
  is_Some ((buildOne demoSections 4 (-1) entropyB).1 !! "Lens").
Proof.
  refine (buildOne_payload_complete demoSections 4 (-1) entropyB
            (mkSection "s1" "Lens" "35mm, 50mm, 85mm" [] false)
            ltac:(lia) _ ltac:(discriminate) ltac:(discriminate)
            ltac:(discriminate)).
  apply list_elem_of_here.
Defined.

(** ** Planning the batch *)

Lemma pickOneValue_fixed_seed pool seedBase batchIndex sectionId e1 e2 :
  seedBase <> -1 ->
  pickOneValue pool seedBase batchIndex sectionId e1
  = ((pickOneValue pool seedBase batchIndex sectionId e2).1, e1).
Proof.
  intros Hs. unfold pickOneValue. rewrite (makeSectionRng_seeded _ _ _ Hs).
  destruct (length (getCandidates pool) =? 0)%nat; [reflexivity|].
  destruct (isRandomized pool); [|reflexivity].
  cbn [callRng]. destruct (mulberry32_next _) as [x t']. reflexivity.
Qed.

Lemma buildOne_section_fixed_seed batchIndex seedBase payload e1 e2 section :
  seedBase <> -1 ->
  buildOne_section batchIndex seedBase (payload, e1) section
  = ((buildOne_section batchIndex seedBase (payload, e2) section).1, e1).
Proof.
  intros Hs. unfold buildOne_section.
  destruct (negb (Js.truthy (Js.trim (title section)))); [reflexivity|].
  rewrite (pickOneValue_fixed_seed _ _ _ _ e1 e2 Hs).
  destruct (pickOneValue _ _ _ _ e2) as [[c|] e']; cbn [fst fmap option_fmap option_map];
    [|reflexivity].
  destruct (Js.truthy (Js.trim c)); reflexivity.
Qed.

Lemma buildOne_fixed_seed sections batchIndex seedBase e1 e2 :
  seedBase <> -1 ->
  buildOne sections batchIndex seedBase e1
  = ((buildOne sections batchIndex seedBase e2).1, e1).
Proof.
  intros Hs. unfold buildOne. generalize (∅ : gmap string string) as payload.
  revert e1 e2.
  induction sections as [|section r IH]; intros e1 e2 payload; [reflexivity|].
  cbn [fold_left].
  rewrite (buildOne_section_fixed_seed _ _ payload e1 e2 section Hs).
  destruct (buildOne_section batchIndex seedBase (payload, e2) section) as [p' e'].
  cbn [fst]. apply IH.
Qed.

Lemma buildPayloads_fixed_seed sections s fuel : forall i e1 e2,
  s <> -1 ->
  buildPayloads sections s i fuel e1 = ((buildPayloads sections s i fuel e2).1, e1).
Proof.
  induction fuel as [|fuel IH]; intros i e1 e2 Hs; [reflexivity|].
  cbn [buildPayloads].
  rewrite (buildOne_fixed_seed sections i s e1 e2 Hs).
  destruct (buildOne sections i s e2) as [p e']. cbn [fst].
  rewrite (IH (i + 1) e1 e' Hs).
  destruct (buildPayloads sections s (i + 1) fuel e') as [ps e'']. reflexivity.
Qed.

(** X12: with a run seed other than -1 the plan is reproducible: building
    the payloads never calls [Math.random], so the entropy source is left
    as it was and the payloads do not depend on it. *)
Theorem onRun_payloads_reproducible apiKey sections seed batch e1 e2 :
  seed <> -1 ->
  onRun_payloads apiKey sections seed batch e1
  = ((onRun_payloads apiKey sections seed batch e2).1, e1).
Proof.
  intros Hs. unfold onRun_payloads.
  destruct (negb (Js.truthy apiKey)); [reflexivity|].
  rewrite (buildPayloads_fixed_seed sections seed _ 0 e1 e2 Hs).
  destruct (buildPayloads sections seed 0 _ e2) as [ps e']. reflexivity.
Qed.

Lemma onRun_payloads_reproducible_witness :
  onRun_payloads "sk-test" demoSections 7 3 entropyA
  = ((onRun_payloads "sk-test" demoSections 7 3 entropyB).1, entropyA).
Proof.
  exact (onRun_payloads_reproducible "sk-test" demoSections 7 3 entropyA entropyB
           ltac:(discriminate)).
Defined.

Lemma buildPayloads_items sections s fuel : forall i e,
  length (buildPayloads sections s i fuel e).1 = fuel
  /\ forall k p, (buildPayloads sections s i fuel e).1 !! k = Some p ->
       exists e', p = (buildOne sections (i + Z.of_nat k) s e').1.
Proof.
  induction fuel as [|fuel IH]; intros i e; cbn [buildPayloads].
  - split; [reflexivity|]. intros k p H. destruct k; discriminate.
  - destruct (buildOne sections i s e) as [p0 e0] eqn:H0.
    destruct (IH (i + 1) e0) as [Hlen Hitems].
    destruct (buildPayloads sections s (i + 1) fuel e0) as [ps e1]. cbn [fst] in *.
    split; [cbn [length]; rewrite Hlen; reflexivity|].
    intros [|k] p; cbn.
    + intros [= <-]. exists e. rewrite Z.add_0_r, H0. reflexivity.
    + intros Hk. destruct (Hitems k p Hk) as [e' ->]. exists e'.
      f_equal. f_equal. lia.
Qed.

(** X13: the planning part of [onRun] fails for an empty API key only, and
    then before any draw. Otherwise it returns [max(1, batch)] payloads,
    one for a batch size of 0 or less, and the payload at position [k] is
    the one built for batch index [k]. *)
Theorem onRun_payloads_count apiKey sections seed batch e :
  (apiKey = "" ->
     onRun_payloads apiKey sections seed batch e
     = (Js.Thrown "Enter your OpenAI API key to generate prompts.", e))
  /\ (apiKey <> "" ->
      exists payloads,
        (onRun_payloads apiKey sections seed batch e).1 = Js.Returned payloads
        /\ length payloads = Z.to_nat (Z.max 1 batch)
        /\ forall k p, payloads !! k = Some p ->
             exists e', p = (buildOne sections (Z.of_nat k) seed e').1).
Proof.
  unfold onRun_payloads. split.
  - intros ->. reflexivity.
  - intros Hkey. apply truthy_nonempty in Hkey. rewrite Hkey. cbn [negb].
    assert (Hsize : Z.max 1 (Js.orElse batch 1) = Z.max 1 batch).
    { unfold Js.orElse. destruct (Z.eqb_spec batch 0); lia. }
    rewrite Hsize.
    destruct (buildPayloads_items sections seed (Z.to_nat (Z.max 1 batch)) 0 e)
      as [Hlen Hitems].
    destruct (buildPayloads sections seed 0 _ e) as [ps e']. cbn [fst] in *.
    exists ps. split; [reflexivity|]. split; [exact Hlen|].
    intros k p Hk. destruct (Hitems k p Hk) as [e1 ->]. exists e1. reflexivity.
Qed.

Lemma onRun_payloads_count_witness :
  exists payloads,
    (onRun_payloads "sk-test" demoSections (-1) 4 entropyB).1 = Js.Returned payloads
    /\ length payloads = 4%nat.
Proof.
  destruct (proj2 (onRun_payloads_count "sk-test" demoSections (-1) 4 entropyB)
              ltac:(discriminate)) as (payloads & H1 & H2 & _).
  exists payloads. auto.
Defined.

(** ** Retrying a request *)

Lemma tryBlock_return r res :
  tryBlock r = TryReturn res -> r = Responded res /\ ok res = true.
Proof.
  unfold tryBlock. destruct r as [res'| |message]; try discriminate.
  destruct (ok res') eqn:Hok.
  - intros [= ->]. auto.
  - destruct (_ || _); discriminate.
Qed.

Lemma jitter_range e : 0 <= Js.floorMul (Math_random e).1 200 < 200.
Proof.
  apply floorMul_range; [|lia]. exact (callRng_unitQ MathRandom e).
Qed.

Lemma timeline_fetches delays : forall a,
  fetchesOf (timeline a delays) = seq a (S (length delays)).
Proof.
  induction delays as [|d r IH]; intros a; [reflexivity|].
  cbn [timeline fetchesOf omap list_omap length seq]. f_equal.
  fold (fetchesOf (timeline (S a) r)). rewrite IH. reflexivity.
Qed.

Lemma timeline_delays delays : forall a, delaysOf (timeline a delays) = delays.
Proof.
  induction delays as [|d r IH]; intros a; [reflexivity|].
  cbn [timeline delaysOf omap list_omap]. f_equal.
  fold (delaysOf (timeline (S a) r)). apply IH.
Qed.

(** Where the attempts and the sleeps stand in a timeline. *)
Lemma timeline_lookup delays : forall a k d,
  delays !! k = Some d ->
  timeline a delays !! (2 * k)%nat = Some (Fetched (a + k))
  /\ timeline a delays !! (2 * k + 1)%nat = Some (Slept d)
  /\ timeline a delays !! (2 * k + 2)%nat = Some (Fetched (a + k + 1)).
Proof.
  induction delays as [|d0 r IH]; intros a k d Hk; [destruct k; discriminate|].
  destruct k as [|k].
  - injection Hk as ->. cbn [timeline]. rewrite !Nat.add_0_r.
    split; [reflexivity|]. split; [reflexivity|].
    destruct r; cbn; f_equal; f_equal; lia.
  - destruct (IH (S a) k d Hk) as (H1 & H2 & H3).
    replace (2 * S k)%nat with (S (S (2 * k))) by lia.
    cbn [timeline lookup list_lookup Nat.add].
    replace (a + S k)%nat with (S a + k)%nat by lia.
    split; [exact H1|]. split; [exact H2|exact H3].
Qed.

(** The course of the loop: nothing at all without fuel; otherwise a
    timeline whose sleeps double from the base delay, each with its jitter,
    ending in a successful response or, the fuel used up, in the failure of
    the last attempt. *)
Lemma fetchLoop_shape fetch baseDelay fuel : forall a lastErr e,
  (fuel = 0%nat
   /\ (fetchLoop fetch baseDelay a lastErr fuel e).1
      = (Js.Thrown (default RequestFailed lastErr), []))
  \/ exists delays,
       (length delays < fuel)%nat
       /\ (fetchLoop fetch baseDelay a lastErr fuel e).1.2 = timeline a delays
       /\ (forall k d, delays !! k = Some d ->
             exists jitter, 0 <= jitter < 200
               /\ d = Js.add (baseDelay * 2 ^ Z.of_nat (a + k)) jitter)
       /\ match (fetchLoop fetch baseDelay a lastErr fuel e).1.1 with
          | Js.Returned res =>
              ok res = true /\ fetch (a + length delays)%nat = Responded res
          | Js.Thrown err =>
              S (length delays) = fuel
              /\ err = failureOf (fetch (a + length delays)%nat)
          end.
Proof.
  induction fuel as [|fuel IH]; intros a lastErr e; [left; split; reflexivity|].
  right. cbn [fetchLoop].
  destruct (tryBlock (fetch a)) as [res|err|thrown] eqn:Htry.
  { apply tryBlock_return in Htry as [Hf Hok].
    exists []. cbn. split; [lia|]. split; [reflexivity|].
    split; [intros k d H; destruct k; discriminate|].
    split; [exact Hok|]. rewrite Nat.add_0_r. exact Hf. }
  (* the attempt did not return: both ways of failing go on alike *)
  all: cbn beta iota.
  all: match goal with
       | |- context [fetchLoop _ _ (S _) (Some ?l) _ _] =>
           assert (Hlast : l = failureOf (fetch a))
             by (unfold failureOf; rewrite Htry; reflexivity);
           clear Htry; generalize dependent l; intros lastErr' Hlast
       end.
  all: destruct fuel as [|fuel'].
  1,3: exists []; cbn; split; [lia|]; split; [reflexivity|];
       split; [intros k d H; destruct k; discriminate|];
       split; [reflexivity|]; rewrite Nat.add_0_r; exact Hlast.
  all: pose proof (jitter_range e) as Hj.
  all: cbn [Math_random fst] in *.
  all: match type of Hj with
       | 0 <= ?j < 200 => generalize dependent j; intros jitter Hj
       end.
  all: match goal with
       | |- context [fetchLoop ?f ?b (S ?a') ?l (S ?fu) ?x] =>
           destruct (IH (S a') l x) as [[Hz _]|(delays & Hn & Hev & Hb & Hr)];
             [discriminate|];
           destruct (fetchLoop f b (S a') l (S fu) x) as [[r evs] e'']
       end.
  all: cbn [fst snd] in *; subst evs.
  all: eexists (_ :: delays); cbn [length app timeline].
  all: split; [lia|]; split; [reflexivity|].
  all: split;
    [intros [|k] d; cbn [lookup list_lookup];
       [intros [= <-]; exists jitter; split; [exact Hj|];
        rewrite Nat.add_0_r;
        replace (Z.of_nat (S a) - 1) with (Z.of_nat a) by lia; reflexivity
       |intros Hk; replace (a + S k)%nat with (S a + k)%nat by lia; apply Hb, Hk]
    |].
  all: replace (a + S (length delays))%nat with (S a + length delays)%nat by lia.
  all: destruct r as [res|err']; [exact Hr|].
  all: destruct Hr as [Hfu Herr]; split; [lia|exact Herr].
Qed.

(** X14: with [tries <= 0] no request is issued and the call fails with
    "Request failed". Otherwise what happens is: attempt 0, a sleep,
    attempt 1, a sleep, and so on up to a last attempt, with fewer sleeps
    than [tries]: the requests are the attempts 0, 1, ..., n-1 in this
    order for some [n <= tries], one sleep lies between two consecutive
    requests, and none follows the last. *)
Theorem fetchWithRetry_attempts fetch baseDelay tries e :
  (0 < tries ->
   exists delays,
     (length delays < Z.to_nat tries)%nat
     /\ (fetchWithRetry fetch baseDelay tries e).1.2 = timeline 0 delays
     /\ fetchesOf (fetchWithRetry fetch baseDelay tries e).1.2
        = seq 0 (S (length delays)))
  /\ (tries <= 0 ->
      fetchWithRetry fetch baseDelay tries e = (Js.Thrown RequestFailed, [], e)).
Proof.
  unfold fetchWithRetry. split.
  - intros Ht.
    destruct (fetchLoop_shape fetch baseDelay (Z.to_nat tries) 0 None e)
      as [[Hz _]|(delays & Hn & Hev & _)]; [lia|].
    exists delays. split; [exact Hn|]. split; [exact Hev|].
    rewrite Hev. apply timeline_fetches.
  - intros Ht. assert (Z.to_nat tries = 0%nat) as -> by lia. reflexivity.
Qed.

(** X15: the [k]-th sleep lies between attempt [k] and attempt [k + 1]. It
    lasts [baseDelay * 2^k] plus a jitter of less than 200, the back-off
    doubling from one retry to the next; this is so as long as the sum is
    small enough to be exact (up to 2^53). *)
Theorem fetchWithRetry_backoff fetch baseDelay tries e k d :
  delaysOf (fetchWithRetry fetch baseDelay tries e).1.2 !! k = Some d ->
  (fetchWithRetry fetch baseDelay tries e).1.2 !! (2 * k)%nat = Some (Fetched k)
  /\ (fetchWithRetry fetch baseDelay tries e).1.2 !! (2 * k + 1)%nat = Some (Slept d)
  /\ (fetchWithRetry fetch baseDelay tries e).1.2 !! (2 * k + 2)%nat
     = Some (Fetched (S k))
  /\ (Z.abs baseDelay * 2 ^ Z.of_nat k + 200 <= 9007199254740992 ->
      baseDelay * 2 ^ Z.of_nat k <= d < baseDelay * 2 ^ Z.of_nat k + 200).
Proof.
  unfold fetchWithRetry.
  destruct (fetchLoop_shape fetch baseDelay (Z.to_nat tries) 0 None e)
    as [[_ Hz]|(delays & _ & Hev & Hb & _)].
  - rewrite Hz. destruct k; discriminate.
  - rewrite Hev, timeline_delays. intros Hk.
    destruct (timeline_lookup delays 0 k d Hk) as (H1 & H2 & H3).
    split; [exact H1|]. split; [exact H2|].
    split; [rewrite H3; do 2 f_equal; lia|].
    intros Hrange. destruct (Hb k d Hk) as (jitter & Hj & ->).
    assert (0 < 2 ^ Z.of_nat k) by (apply Z.pow_pos_nonneg; lia).
    cbn [Nat.add]. rewrite add_exact by nia. lia.
Qed.

Lemma fetchWithRetry_backoff_witness :
  (fetchWithRetry alwaysBadRequest 500 3 entropyA).1.2 !! 3%nat = Some (Slept 1000)
  /\ 500 * 2 ^ Z.of_nat 1 <= 1000 < 500 * 2 ^ Z.of_nat 1 + 200.
Proof.
  pose proof (fetchWithRetry_backoff alwaysBadRequest 500 3 entropyA 1 1000 eq_refl)
    as (_ & H2 & _ & H4).
  split; [exact H2|]. apply H4. cbn. lia.
Defined.

(** X16: a call that returns a response returns a successful one, the
    response to its last request. A call that fails has used all its tries,
    and the error it throws is the failure of the last attempt, a timeout
    being reported as "Request timeout". *)
Theorem fetchWithRetry_outcome fetch baseDelay tries e :
  match (fetchWithRetry fetch baseDelay tries e).1.1 with
  | Js.Returned res =>
      ok res = true
      /\ exists n, (0 < n <= Z.to_nat tries)%nat
           /\ fetchesOf (fetchWithRetry fetch baseDelay tries e).1.2 = seq 0 n
           /\ fetch (n - 1)%nat = Responded res
  | Js.Thrown err =>
      fetchesOf (fetchWithRetry fetch baseDelay tries e).1.2 = seq 0 (Z.to_nat tries)
      /\ (0 < tries -> err = failureOf (fetch (Z.to_nat tries - 1)%nat))
      /\ (0 < tries -> fetch (Z.to_nat tries - 1)%nat = Aborted ->
          err = RequestTimeout)
  end.
Proof.
  unfold fetchWithRetry.
  destruct (fetchLoop_shape fetch baseDelay (Z.to_nat tries) 0 None e)
    as [[Hz Hnone]|(delays & Hn & Hev & _ & Hr)].
  - rewrite Hnone, Hz. cbn. split; [reflexivity|]. split; intros; lia.
  - destruct (fetchLoop fetch baseDelay 0 None (Z.to_nat tries) e) as [[r evs] e'].
    cbn [fst snd Nat.add] in *. subst evs. rewrite timeline_fetches.
    destruct r as [res|err].
    + destruct Hr as (Hok & Hres). split; [exact Hok|].
      exists (S (length delays)). split; [lia|]. split; [reflexivity|].
      replace (S (length delays) - 1)%nat with (length delays) by lia. exact Hres.
    + destruct Hr as (Hfu & Herr). rewrite <- Hfu. split; [reflexivity|].
      replace (S (length delays) - 1)%nat with (length delays) by lia.
      split; [intros _; exact Herr|]. intros _ Hab. rewrite Herr, Hab. reflexivity.
Qed.

(** ** The dispatcher, further *)

Lemma callOpenAI_returns fetch maxRetries baseDelay e :
  exists result, (callOpenAI fetch maxRetries baseDelay e).1 = Js.Returned result.
Proof.
  unfold callOpenAI, execute, apiCall.
  destruct (fetchWithRetry fetch baseDelay maxRetries e) as [[r ev] x].
  destruct r as [res|err]; [destruct (body res)|]; eauto.
Qed.

Lemma tally_awaiting_le ws : (tally awaitingOne ws <= length ws)%nat.
Proof.
  induction ws as [|w r IH]; cbn [tally length]; [lia|].
  unfold awaitingOne at 1. destruct (isAwaiting w); lia.
Qed.

Section DispatcherMore.

Local Open Scope nat_scope.

Context {Messages : Type}.
Variable network : Messages -> nat -> nat -> FetchResult.
Variable queue : list Messages.

Lemma stepWorker_never_fails w s s' :
  stepWorker network queue w s = Some s' ->
  fail (progress s') = fail (progress s)
  /\ ok_ (progress s') + done_ (progress s) = ok_ (progress s) + done_ (progress s').
Proof.
  unfold stepWorker.
  destruct (workers s !! w) as [[|i|]|]; try discriminate.
  - destruct (index s <? length queue); intros [= <-]; cbn; auto.
  - destruct (queue !! i) as [m|]; [|discriminate].
    destruct (callOpenAI_returns (network m i) 3 500 (entropy s)) as [result Hr].
    destruct (callOpenAI (network m i) 3 500 (entropy s)) as [settled' e'].
    cbn [fst] in Hr. subst settled'. intros [= <-]. cbn. lia.
Qed.

Lemma run_never_fails schedule : forall s,
  fail (progress s) = 0 -> ok_ (progress s) = done_ (progress s) ->
  fail (progress (run network queue schedule s)) = 0
  /\ ok_ (progress (run network queue schedule s))
     = done_ (progress (run network queue schedule s)).
Proof.
  induction schedule as [|w r IH]; intros s Hf Hok; [auto|].
  cbn [run]. destruct (stepWorker network queue w s) as [s'|] eqn:Hstep;
    cbn [default from_option]; unfold Datatypes.id; [|apply IH; assumption].
  destruct (stepWorker_never_fails _ _ _ Hstep) as [Hf' Hok'].
  apply IH; lia.
Qed.

Lemma stepWorker_workers_length w s s' :
  stepWorker network queue w s = Some s' -> length (workers s') = length (workers s).
Proof.
  intros Hstep.
  destruct (stepWorker_cases _ _ _ _ _ Hstep)
    as [(_ & _ & _ & _ & _ & ->)
       |[(_ & _ & _ & _ & _ & ->)
        |(i & m & _ & _ & _ & _ & -> & _)]];
    apply length_insert.
Qed.

Lemma run_workers_length schedule : forall s,
  length (workers (run network queue schedule s)) = length (workers s).
Proof.
  induction schedule as [|w r IH]; intros s; [reflexivity|].
  cbn [run]. rewrite IH.
  destruct (stepWorker network queue w s) as [s'|] eqn:Hstep;
    cbn [default from_option]; unfold Datatypes.id; [|reflexivity].
  eapply stepWorker_workers_length, Hstep.
Qed.

Lemma stepWorker_settled w s s' i :
  stepWorker network queue w s = Some s' -> settled i s -> settled i s'.
Proof.
  intros Hstep [Hi Hno].
  destruct (stepWorker_cases _ _ _ _ _ Hstep)
    as [(_ & _ & Hidx & _ & _ & Hws)
       |[(_ & _ & Hidx & _ & _ & Hws)
        |(j & m & _ & _ & Hidx & _ & Hws & _)]];
    split; rewrite ?Hidx, ?Hws; try lia;
    intros w' Hw'; apply list_lookup_insert_Some in Hw' as [(_ & Heq & _)|(_ & Hw')];
    try discriminate; try (exact (Hno w' Hw')).
  injection Heq as Heq. lia.
Qed.

Lemma run_settled schedule i : forall s,
  settled i s -> settled i (run network queue schedule s).
Proof.
  induction schedule as [|w r IH]; intros s Hs; [exact Hs|].
  cbn [run]. apply IH.
  destruct (stepWorker network queue w s) as [s'|] eqn:Hstep;
    cbn [default from_option]; unfold Datatypes.id; [|exact Hs].
  eapply stepWorker_settled; eassumption.
Qed.

End DispatcherMore.

(** X17: in the program as composed, the failure counter never moves.
    [callOpenAI] turns every failed request into the value [null], so each
    job is counted under [ok], whatever the server answered: at every
    moment [fail = 0] and [ok = done]. *)
Theorem callLLM_failure_counter_stays_zero {Payload Messages : Type}
    (buildLLMMessages : Payload -> Messages)
    (network : Messages -> nat -> nat -> FetchResult)
    apiKey (payloads : list Payload) maxParallel shown schedule e :
  apiKey <> "" ->
  fail (callLLM buildLLMMessages network apiKey payloads maxParallel shown schedule e).2
  = 0%nat
  /\ ok_ (callLLM buildLLMMessages network apiKey payloads maxParallel shown schedule e).2
     = done_ (callLLM buildLLMMessages network apiKey payloads maxParallel shown
                schedule e).2.
Proof.
  intros Hkey. apply truthy_nonempty in Hkey.
  unfold callLLM. rewrite Hkey. cbn [negb snd].
  apply run_never_fails; reflexivity.
Qed.

Lemma callLLM_failure_counter_stays_zero_witness :
  fail (callLLM (fun p : nat => p) (fun _ _ => alwaysBadRequest) "sk-test"
          [7; 8]%nat 2 (mkProgress 2 0 0 0) [0; 1; 0; 1; 0; 1]%nat entropyA).2 = 0%nat
  /\ callLLM (fun p : nat => p) (fun _ _ => alwaysBadRequest) "sk-test"
       [7; 8]%nat 2 (mkProgress 2 0 0 0) [0; 1; 0; 1; 0; 1]%nat entropyA
     = (Fulfilled [""; ""], mkProgress 2 2 2 0).
Proof.
  split; [|reflexivity].
  exact (proj1 (callLLM_failure_counter_stays_zero (fun p : nat => p)
                  (fun _ _ => alwaysBadRequest) "sk-test" [7; 8]%nat 2
                  (mkProgress 2 0 0 0) [0; 1; 0; 1; 0; 1]%nat entropyA
                  ltac:(discriminate))).
Defined.

(** X18: between 1 and 10 workers are started, whatever concurrency is
    asked for, and at no moment are more calls in flight than there are
    workers or than there are jobs. *)
Theorem callLLM_in_flight_bound {Messages : Type}
    (network : Messages -> nat -> nat -> FetchResult)
    (queue : list Messages) maxParallel schedule e :
  (1 <= workerCount maxParallel <= 10)%nat
  /\ length (workers (run network queue schedule (callLLM_start queue maxParallel e)))
     = workerCount maxParallel
  /\ (inFlight (run network queue schedule (callLLM_start queue maxParallel e))
      <= Nat.min (workerCount maxParallel) (length queue))%nat.
Proof.
  assert (Hlen : length (workers (run network queue schedule
                                    (callLLM_start queue maxParallel e)))
                 = workerCount maxParallel).
  { rewrite run_workers_length. apply length_replicate. }
  split; [unfold workerCount; lia|]. split; [exact Hlen|].
  pose proof (run_preserves network queue schedule _
                (start_inv network queue maxParallel e)) as HI.
  pose proof (inv_done _ _ _ HI). pose proof (inv_index _ _ _ HI).
  pose proof (tally_awaiting_le
                (workers (run network queue schedule
                            (callLLM_start queue maxParallel e)))).
  unfold inFlight. lia.
Qed.

(** X19: a job is never in two hands. At every moment no two workers wait
    on the call of the same job, every call in flight belongs to a job of
    the queue, and once the call of job [i] has settled, slot [i] holds
    its outcome through all later turns. *)
Theorem callLLM_jobs_exclusive {Messages : Type}
    (network : Messages -> nat -> nat -> FetchResult)
    (queue : list Messages) maxParallel schedule e :
  (forall w1 w2 i,
     workers (run network queue schedule (callLLM_start queue maxParallel e)) !! w1
       = Some (Awaiting i) ->
     workers (run network queue schedule (callLLM_start queue maxParallel e)) !! w2
       = Some (Awaiting i) ->
     w1 = w2)
  /\ (forall w i,
        workers (run network queue schedule (callLLM_start queue maxParallel e)) !! w
          = Some (Awaiting i) ->
        (i < length queue)%nat)
  /\ (forall i m later,
        settled i (run network queue schedule (callLLM_start queue maxParallel e)) ->
        queue !! i = Some m ->
        results (run network queue (schedule ++ later)
                   (callLLM_start queue maxParallel e)) !! i
        = Some (settledValue network m i)).
Proof.
  pose proof (run_preserves network queue schedule _
                (start_inv network queue maxParallel e)) as HI.
  split; [exact (inv_owner _ _ _ HI)|]. split.
  - intros w i Hw. pose proof (inv_claimed _ _ _ HI _ _ Hw).
    pose proof (inv_index _ _ _ HI). lia.
  - intros i m later Hs Hq. rewrite run_app.
    pose proof (run_settled network queue later i _ Hs) as [Hi Hno].
    apply (inv_slot _ _ _ (run_preserves network queue later _ HI)); assumption.
Qed.

(** ** The list editor *)

Lemma filter_all {A} (P : A -> Prop) `{!forall x, Decision (P x)} (l : list A) :
  Forall P l -> filter P l = l.
Proof.
  induction 1 as [|x r Hx _ IH]; [reflexivity|].
  rewrite filter_cons_True by exact Hx. rewrite IH. reflexivity.
Qed.

(** X20: "random on" and "something selected" exclude each other. If the
    selections are empty whenever the random flag is set, they still are
    after a click on an option, after a click on the random button, and
    after the reconciling effect. *)
Theorem boxEditor_random_excludes_selections selected randomOn :
  (randomOn = true -> selected = []) ->
  (forall opt, (toggle selected randomOn opt).2 = true ->
               (toggle selected randomOn opt).1 = [])
  /\ ((toggleRandom selected randomOn).2 = true ->
      (toggleRandom selected randomOn).1 = [])
  /\ (forall value, randomOn = true -> reconcileSelections value selected = []).
Proof.
  intros Hinv. split; [|split].
  - intros opt. unfold toggle.
    destruct (includes selected opt); cbn [fst snd]; [|discriminate].
    intros Hr. rewrite (Hinv Hr). reflexivity.
  - unfold toggleRandom. destruct randomOn; cbn; [discriminate|reflexivity].
  - intros value Hr. rewrite (Hinv Hr). reflexivity.
Qed.

Lemma boxEditor_random_excludes_selections_witness :
  (toggleRandom ["a"; "b"] false).1 = [].
Proof.
  exact (proj1 (proj2 (boxEditor_random_excludes_selections ["a"; "b"] false
                         ltac:(discriminate))) eq_refl).
Defined.

(** X21: a click on an option that is not selected selects it, last in the
    list, and turns the random flag off; a click on a selected option
    removes every occurrence of it; two clicks on an option that was not
    selected restore the selections. *)
Theorem toggle_round_trip selected randomOn opt :
  (opt ∉ selected ->
     toggle selected randomOn opt = ((selected ++ [opt])%list, false)
     /\ (toggle (toggle selected randomOn opt).1 (toggle selected randomOn opt).2 opt).1
        = selected)
  /\ (opt ∈ selected ->
      (opt ∉ ((toggle selected randomOn opt).1))
      /\ ((toggle selected randomOn opt).1) `sublist_of` selected
      /\ (toggle selected randomOn opt).2 = randomOn).
Proof.
  split.
  - intros Hno.
    assert (Hfirst : toggle selected randomOn opt = ((selected ++ [opt])%list, false)).
    { unfold toggle, includes. rewrite bool_decide_eq_false_2 by exact Hno. reflexivity. }
    split; [exact Hfirst|]. rewrite Hfirst. cbn [fst snd]. unfold toggle, includes.
    rewrite bool_decide_eq_true_2 by (apply elem_of_app; right; left).
    cbn [fst]. rewrite filter_app, filter_cons_False by (intros H; apply H; reflexivity).
    rewrite filter_nil, app_nil_r. apply filter_all.
    apply Forall_forall. intros x Hx ->. contradiction.
  - intros Hin.
    assert (Hrm : toggle selected randomOn opt
                  = (filter (fun o => o <> opt) selected, randomOn)).
    { unfold toggle, includes. rewrite bool_decide_eq_true_2 by exact Hin. reflexivity. }
    rewrite Hrm. cbn [fst snd].
    split; [|split; [apply sublist_filter|reflexivity]].
    intros [Hne _]%list_elem_of_filter. apply Hne. reflexivity.
Qed.

Lemma toggle_round_trip_witness :
  (toggle (toggle ["a"] true "b").1 (toggle ["a"] true "b").2 "b").1 = ["a"].
Proof.
  refine (proj2 (proj1 (toggle_round_trip ["a"] true "b") _)).
  rewrite not_elem_of_cons. split; [discriminate|apply not_elem_of_nil].
Defined.

(** X22: the reconciling effect settles after one run. What it hands to
    [setSelected] it would leave alone the next time, it keeps the order of
    the selections, and every selection it keeps is, trimmed and in lower
    case, a token of the list in lower case. *)
Theorem reconcileSelections_settles value selected :
  reconcileSelections value (reconcileSelections value selected)
  = reconcileSelections value selected
  /\ reconcileSelections value selected `sublist_of` selected
  /\ Forall (fun s => Js.toLowerCase (Js.trim s)
                      ∈ map Js.toLowerCase (toList value))
            (reconcileSelections value selected).
Proof.
  assert (Hall : Forall (fun s => Js.toLowerCase (Js.trim s)
                                  ∈ map Js.toLowerCase (toList value))
                   (reconcileSelections value selected)).
  { rewrite reconcileSelections_filter. apply Forall_forall.
    intros s [Hs _]%list_elem_of_filter. exact Hs. }
  split; [|split; [|exact Hall]].
  - rewrite (reconcileSelections_filter value (reconcileSelections value selected)).
    apply filter_all, Hall.
  - rewrite reconcileSelections_filter. apply sublist_filter.
Qed.

(** ** Section titles *)

Lemma updateSection_Forall (P : SectionData -> Prop) sectionId f sections :
  (forall s, P s -> P (f s)) ->
  Forall P sections -> Forall P (updateSection sectionId f sections).
Proof.
  intros Hf Hall. unfold updateSection. apply Forall_fmap.
  eapply Forall_impl; [exact Hall|]. intros s Hs. cbn.
  destruct (decide (id s = sectionId)); auto.
Qed.

Lemma handleSectionTitleChange_ok sectionId newTitle sections :
  Forall titleOk sections ->
  Forall titleOk (handleSectionTitleChange sectionId newTitle sections).
Proof.
  intros Hall. unfold handleSectionTitleChange.
  destruct (Js.truthy (Js.trim newTitle)) eqn:Ht; cbn [negb]; [|exact Hall].
  apply updateSection_Forall; [|exact Hall].
  intros s _. split; cbn [title]; [apply truthy_nonempty, Ht|apply trim_idem].
Qed.

Lemma applyAction_ok action sections :
  Forall titleOk sections -> Forall titleOk (applyAction action sections).
Proof.
  intros Hall. destruct action; cbn [applyAction].
  - unfold handleAddSection. apply Forall_app. split; [exact Hall|].
    constructor; [|constructor]. split; [discriminate|reflexivity].
  - unfold handleRemoveSection. apply Forall_forall.
    intros s [_ Hs]%list_elem_of_filter. rewrite Forall_forall in Hall. auto.
  - apply handleSectionTitleChange_ok, Hall.
  - unfold handleSave. destruct (_ && _); [|exact Hall].
    apply handleSectionTitleChange_ok, Hall.
  - apply updateSection_Forall; [|exact Hall]. intros s Hs. exact Hs.
  - apply updateSection_Forall; [|exact Hall]. intros s Hs. exact Hs.
  - apply updateSection_Forall; [|exact Hall]. intros s Hs. exact Hs.
Qed.

(** X23: editing never leaves a section without a usable title. If every
    title is trimmed and not empty, this is still so after any sequence of
    adding, removing, renaming and editing sections; a new title that is
    blank is refused and changes nothing. *)
Theorem editor_keeps_titles actions sections :
  Forall titleOk sections ->
  Forall titleOk (fold_left (fun s action => applyAction action s) actions sections)
  /\ (forall sectionId newTitle,
        Js.trim newTitle = "" ->
        handleSectionTitleChange sectionId newTitle sections = sections).
Proof.
  intros Hall. split.
  - revert sections Hall. induction actions as [|action r IH]; intros sections Hall;
      [exact Hall|].
    cbn [fold_left]. apply IH, applyAction_ok, Hall.
  - intros sectionId newTitle Hblank. unfold handleSectionTitleChange.
    rewrite Hblank. reflexivity.
Qed.

Lemma editor_keeps_titles_witness :
  Forall titleOk
    (fold_left (fun s action => applyAction action s)
       [TitleChange "s1" "   "; AddSection "u-1"; SaveTitle "u-1" "New Section" " Sky "]
       [mkSection "s1" "Lens" "35mm" [] false]).
Proof.
  refine (proj1 (editor_keeps_titles _ [mkSection "s1" "Lens" "35mm" [] false] _)).
  constructor; [|constructor]. split; [discriminate|reflexivity].
Defined.

(** ** Loading a preset *)

Lemma trimEnd_fixed s :
  allChars (fun c => negb (Js.isWhiteSpace c)) s = true -> Js.trimEnd s = s.
Proof.
  induction s as [|c r IH]; cbn [allChars Js.trimEnd]; [reflexivity|].
  intros [Hc Hr]%andb_true_iff. rewrite (IH Hr).
  destruct r; [|reflexivity].
  destruct (Js.isWhiteSpace c); [discriminate|reflexivity].
Qed.

Lemma trimEnd_append a b :
  b <> "" -> Js.trimEnd b = b -> Js.trimEnd (a ++ b) = a ++ b.
Proof.
  intros Hne Hb. induction a as [|c a' IH]; [exact Hb|].
  change (String c a' ++ b) with (String c (a' ++ b)).
  cbn [Js.trimEnd]. rewrite IH.
  destruct (a' ++ b) eqn:Hab; [|reflexivity].
  destruct a' as [|c' a'']; [destruct (Hne Hab)|].
  change (String c' a'' ++ b) with (String c' (a'' ++ b)) in Hab. discriminate.
Qed.

Lemma pretty_N_go_digits x : forall s,
  allChars (fun c => negb (Js.isWhiteSpace c)) s = true ->
  allChars (fun c => negb (Js.isWhiteSpace c)) (pretty_N_go x s) = true.
Proof.
  induction (N.lt_wf_0 x) as [x _ IH]; intros s Hs.
  destruct (decide (x = 0)%N) as [->|Hx]; [rewrite pretty_N_go_0; exact Hs|].
  rewrite pretty_N_go_step by lia. apply IH; [apply N.div_lt; lia|].
  cbn [allChars]. rewrite Hs, andb_true_r.
  unfold pretty_N_char. repeat case_match; reflexivity.
Qed.

Lemma pretty_N_go_nonempty x s : s <> "" -> pretty_N_go x s <> "".
Proof.
  revert s. induction (N.lt_wf_0 x) as [x _ IH]; intros s Hs.
  destruct (decide (x = 0)%N) as [->|Hx]; [rewrite pretty_N_go_0; exact Hs|].
  rewrite pretty_N_go_step by lia. apply IH; [apply N.div_lt; lia|discriminate].
Qed.

Lemma pretty_nat_digits (n : nat) :
  pretty n <> ""
  /\ allChars (fun c => negb (Js.isWhiteSpace c)) (pretty n) = true.
Proof.
  unfold pretty, pretty_nat, pretty, pretty_N.
  destruct (decide (N.of_nat n = 0)%N) as [_|Hn]; [split; [discriminate|reflexivity]|].
  split.
  - rewrite pretty_N_go_step by lia. apply pretty_N_go_nonempty. discriminate.
  - apply pretty_N_go_digits. reflexivity.
Qed.

Lemma default_title_ok (n : nat) :
  "Section " ++ pretty n <> "" /\ Js.trim ("Section " ++ pretty n) = "Section " ++ pretty n.
Proof.
  split; [discriminate|].
  destruct (pretty_nat_digits n) as [Hne Hd].
  unfold Js.trim. change (Js.trimStart ("Section " ++ pretty n)) with ("Section " ++ pretty n).
  apply trimEnd_append; [exact Hne|apply trimEnd_fixed, Hd].
Qed.

Lemma orString_nonempty s d : d <> "" -> orString s d <> "".
Proof.
  intros Hd. unfold orString. destruct s as [v|]; [|exact Hd].
  destruct (Js.truthy v) eqn:Hv; [apply truthy_nonempty, Hv|exact Hd].
Qed.

Lemma resolveSection_ok index section :
  titleOk (resolveSection index section) /\ id (resolveSection index section) <> "".
Proof.
  destruct (default_title_ok (index + 1)) as [Hne Htrim].
  split; [split|]; cbn [resolveSection title id].
  - apply orString_nonempty, Hne.
  - unfold orString. destruct (rawTitle section) as [t|]; cbn; [|exact Htrim].
    destruct (Js.truthy (Js.trim t)); [apply trim_idem|exact Htrim].
  - apply orString_nonempty. discriminate.
Qed.

Lemma resolvePresetSections_new sections migrated :
  sections <> [] ->
  resolvePresetSections (Some sections) migrated = imap resolveSection sections.
Proof. destruct sections; [congruence|reflexivity]. Qed.

(** X24: the sections loaded from a preset in the new format are as many
    as the preset has, each with a title that is trimmed and not empty and
    with an id that is not empty, whatever fields the document lacks. A
    preset without sections, or with an empty array of them, is handed to
    the migration of the old format. *)
Theorem resolvePresetSections_wellformed sections migrated :
  sections <> [] ->
  length (resolvePresetSections (Some sections) migrated) = length sections
  /\ Forall (fun s => titleOk s /\ id s <> "")
            (resolvePresetSections (Some sections) migrated)
  /\ resolvePresetSections (Some []) migrated = migrated
  /\ resolvePresetSections None migrated = migrated.
Proof.
  intros Hne. rewrite resolvePresetSections_new by exact Hne.
  split; [apply length_imap|]. split; [|split; reflexivity].
  apply Forall_forall. intros s (i & raw & -> & _)%elem_of_lookup_imap_1.
  apply resolveSection_ok.
Qed.

Lemma resolvePresetSections_wellformed_witness :
  length (resolvePresetSections
            (Some [mkRawSection None (Some "  ") None None true]) []) = 1%nat.
Proof.
  exact (proj1 (resolvePresetSections_wellformed
                  [mkRawSection None (Some "  ") None None true] []
                  ltac:(discriminate))).
Defined.

Lemma orString_Some_id v d : v <> "" -> orString (Some v) d = v.
Proof. intros Hv%truthy_nonempty. unfold orString. rewrite Hv. reflexivity. Qed.

Lemma orString_list v : orString (Some v) "" = v.
Proof. unfold orString. destruct v; reflexivity. Qed.

(** X25: saving and loading returns the sections. A list of sections that
    is not empty, whose titles are trimmed and not empty and whose ids are
    not empty, written out with all its fields, is resolved to itself. *)
Theorem resolvePresetSections_round_trip sections migrated :
  sections <> [] ->
  Forall (fun s => titleOk s /\ id s <> "") sections ->
  resolvePresetSections (Some (rawOfSection <$> sections)) migrated = sections.
Proof.
  intros Hne Hall.
  rewrite resolvePresetSections_new by (destruct sections; [congruence|discriminate]).
  rewrite imap_fmap.
  assert (Hgen : forall f : nat -> nat,
             imap (fun n => resolveSection (f n) ∘ rawOfSection) sections = sections).
  { clear Hne. induction Hall as [|s r [[Hne Htrim] Hid] _ IH]; intros f; [reflexivity|].
    rewrite imap_cons. f_equal.
    - unfold resolveSection, rawOfSection, compose.
      cbn [rawId rawTitle rawList rawSelections rawIsRandomized
           fmap option_fmap option_map default from_option].
      rewrite Htrim, !orString_Some_id, orString_list by assumption.
      destruct s; reflexivity.
    - apply (IH (f ∘ S)). }
  apply (Hgen (fun n => n)).
Qed.

Lemma resolvePresetSections_round_trip_witness :
  resolvePresetSections
    (Some (rawOfSection <$> [mkSection "s1" "Lens" "35mm, 50mm" ["35mm"] false])) []
  = [mkSection "s1" "Lens" "35mm, 50mm" ["35mm"] false].
Proof.
  apply resolvePresetSections_round_trip; [discriminate|].
  constructor; [|constructor]. repeat split; discriminate.
Defined.


(** An id that a section brings can be the default id of another one:
    the ids of the resolved sections are not different in general. *)
Example resolvePresetSections_id_clash :
  map id (resolvePresetSections
            (Some [mkRawSection (Some "section-2") (Some "A") None None true;
                   mkRawSection None (Some "B") None None true]) [])
  = ["section-2"; "section-2"].
Proof. reflexivity. Qed.

(** ** Local storage *)

(** X27: what [setValue] stores is what the hook reads on its next mount,
    provided the value serializes to a string that is not empty, that the
    storage takes and that deserializes to the value; the items under
    other keys are not touched. A value that serializes to the empty
    string is stored, but the next mount reads the initial value. A
    serializer that throws, or a storage that refuses the item, leaves the
    storage as it was while the state of the hook has the new value. *)
Theorem localStorage_round_trip {T : Type}
    (serialize : T -> option string) (deserialize : string -> option T)
    (accepts : string -> string -> bool)
    key (v storedValue initialValue : T) storage item :
  serialize v = Some item -> item <> "" -> accepts key item = true ->
  deserialize item = Some v ->
  mountValue deserialize key initialValue
    (setValue serialize accepts key (inl v) storedValue storage).2 = v
  /\ (setValue serialize accepts key (inl v) storedValue storage).1 = v
  /\ (forall key', key' <> key ->
        (setValue serialize accepts key (inl v) storedValue storage).2 !! key'
        = storage !! key')
  /\ (forall w, serialize w = Some "" -> accepts key "" = true ->
        mountValue deserialize key initialValue
          (setValue serialize accepts key (inl w) storedValue storage).2
        = initialValue)
  /\ (forall w, (serialize w = None
                 \/ exists refused, serialize w = Some refused
                                    /\ accepts key refused = false) ->
        setValue serialize accepts key (inl w) storedValue storage = (w, storage)).
Proof.
  intros Hser Hne Hacc Hdes. unfold setValue, mountValue.
  rewrite Hser, Hacc. cbn [fst snd].
  split; [|split; [reflexivity|split; [|split]]].
  - rewrite lookup_insert_eq. apply truthy_nonempty in Hne. rewrite Hne, Hdes.
    reflexivity.
  - intros key' Hk. apply lookup_insert_ne. congruence.
  - intros w -> ->. cbn [snd]. rewrite lookup_insert_eq. reflexivity.
  - intros w [->|(refused & -> & ->)]; reflexivity.
Qed.

Lemma localStorage_round_trip_witness :
  mountValue (fun s : string => Some s) "pa_preset" "HWS14"
    (setValue (fun s : string => Some s) (fun _ _ => true) "pa_preset" (inl "ORJ")
       "HWS14" ∅).2 = "ORJ".
Proof.
  exact (proj1 (localStorage_round_trip (fun s : string => Some s)
                  (fun s : string => Some s) (fun _ _ => true)
                  "pa_preset" "ORJ" "HWS14" "HWS14" ∅ "ORJ"
                  eq_refl ltac:(discriminate) eq_refl eq_refl)).
Defined.

(** ** Reordering the sections *)

Lemma findIndex_found {A} (p : A -> bool) (l : list A) : forall k x,
  l !! k = Some x -> p x = true ->
  (forall j y, (j < k)%nat -> l !! j = Some y -> p y = false) ->
  findIndex p l = Z.of_nat k.
Proof.
  induction l as [|x0 r IH]; intros k x Hk Hx Hbefore; [destruct k; discriminate|].
  cbn [findIndex]. destruct k as [|k].
  - injection Hk as ->. rewrite Hx. reflexivity.
  - rewrite (Hbefore 0%nat x0) by (reflexivity || lia).
    rewrite (IH k x Hk Hx).
    + destruct (Z.ltb_spec (Z.of_nat k) 0); lia.
    + intros j y Hj Hy. apply (Hbefore (S j) y); [lia|exact Hy].
Qed.

Lemma findIndex_absent {A} (p : A -> bool) (l : list A) :
  (forall x, x ∈ l -> p x = false) -> findIndex p l = -1.
Proof.
  induction l as [|x0 r IH]; intros Hno; [reflexivity|].
  cbn [findIndex]. rewrite (Hno x0) by left.
  rewrite IH by (intros x Hx; apply Hno; right; exact Hx). reflexivity.
Qed.

Lemma findIndex_cases {A} (p : A -> bool) (l : list A) :
  (forall x, x ∈ l -> p x = false)
  \/ exists k x, l !! k = Some x /\ p x = true
       /\ forall j y, (j < k)%nat -> l !! j = Some y -> p y = false.
Proof.
  induction l as [|x0 r IH]; [left; intros x Hx; inversion Hx|].
  destruct (p x0) eqn:H0.
  - right. exists 0%nat, x0. split; [reflexivity|]. split; [exact H0|]. intros; lia.
  - destruct IH as [Hno|(k & x & Hk & Hx & Hbefore)].
    + left. intros x [->|Hx]%elem_of_cons; auto.
    + right. exists (S k), x. split; [exact Hk|]. split; [exact Hx|].
      intros [|j] y Hj Hy; [injection Hy as <-; exact H0|].
      apply (Hbefore j y); [lia|exact Hy].
Qed.

Lemma moveSectionUp_at sectionId sections k prev s :
  sections !! k = Some prev -> sections !! S k = Some s -> id s = sectionId ->
  (forall j y, (j <= k)%nat -> sections !! j = Some y -> id y <> sectionId) ->
  moveSectionUp sectionId sections = Some <$> <[S k := prev]> (<[k := s]> sections).
Proof.
  intros Hprev Hs Hid Hbefore. unfold moveSectionUp.
  rewrite (findIndex_found _ sections (S k) s Hs).
  - destruct (Z.ltb_spec 0 (Z.of_nat (S k))); [|lia].
    replace (Z.of_nat (S k) - 1) with (Z.of_nat k) by lia.
    apply swap_Some; assumption.
  - apply bool_decide_eq_true_2, Hid.
  - intros j y Hj Hy. apply bool_decide_eq_false_2. apply (Hbefore j y); [lia|exact Hy].
Qed.

Lemma moveSectionDown_at sectionId sections k s next :
  sections !! k = Some s -> sections !! S k = Some next -> id s = sectionId ->
  (forall j y, (j < k)%nat -> sections !! j = Some y -> id y <> sectionId) ->
  moveSectionDown sectionId sections = Some <$> <[S k := s]> (<[k := next]> sections).
Proof.
  intros Hs Hnext Hid Hbefore. unfold moveSectionDown.
  rewrite (findIndex_found _ sections k s Hs).
  - pose proof (lookup_lt_Some _ _ _ Hnext).
    destruct (Z.ltb_spec (Z.of_nat k) (Z.of_nat (length sections) - 1)); [|lia].
    replace (Z.of_nat k + 1) with (Z.of_nat (S k)) by lia.
    apply swap_Some; assumption.
  - apply bool_decide_eq_true_2, Hid.
  - intros j y Hj Hy. apply bool_decide_eq_false_2. apply (Hbefore j y); [lia|exact Hy].
Qed.

(** X28: [moveSectionUp] exchanges the first section that has the id with
    the section before it; when no section has the id, or the first one
    that has it is at the head, nothing changes. In every case the result
    is all sections, rearranged, with no entry undefined. *)
Theorem moveSectionUp_moves sectionId sections :
  (forall k prev s,
     sections !! k = Some prev -> sections !! S k = Some s -> id s = sectionId ->
     (forall j y, (j <= k)%nat -> sections !! j = Some y -> id y <> sectionId) ->
     moveSectionUp sectionId sections
     = Some <$> <[S k := prev]> (<[k := s]> sections))
  /\ ((forall s, s ∈ sections -> id s <> sectionId) ->
      moveSectionUp sectionId sections = Some <$> sections)
  /\ (forall s r, sections = s :: r -> id s = sectionId ->
      moveSectionUp sectionId sections = Some <$> sections)
  /\ exists arranged,
       moveSectionUp sectionId sections = Some <$> arranged
       /\ arranged ≡ₚ sections.
Proof.
  assert (Habsent : (forall s, s ∈ sections -> id s <> sectionId) ->
                    moveSectionUp sectionId sections = Some <$> sections).
  { intros Hno. unfold moveSectionUp. rewrite findIndex_absent; [reflexivity|].
    intros x Hx. apply bool_decide_eq_false_2, Hno, Hx. }
  assert (Hhead : forall s r, sections = s :: r -> id s = sectionId ->
                    moveSectionUp sectionId sections = Some <$> sections).
  { intros s r -> Hid. unfold moveSectionUp.
    rewrite (findIndex_found _ (s :: r) 0%nat s eq_refl);
      [reflexivity|apply bool_decide_eq_true_2, Hid|intros; lia]. }
  split; [apply moveSectionUp_at|]. split; [exact Habsent|]. split; [exact Hhead|].
  destruct (findIndex_cases (fun s => bool_decide (id s = sectionId)) sections)
    as [Hno|(k & s & Hk & Hs & Hbefore)].
  - exists sections. split; [|reflexivity].
    apply Habsent. intros x Hx. specialize (Hno x Hx).
    apply bool_decide_eq_false in Hno. exact Hno.
  - apply bool_decide_eq_true in Hs. destruct k as [|k].
    + exists sections. split; [|reflexivity].
      destruct sections as [|s0 r]; [discriminate|]. injection Hk as ->.
      apply (Hhead s r eq_refl Hs).
    + destruct (lookup_lt_is_Some_2 sections k) as [prev Hprev];
        [apply lookup_lt_Some in Hk; lia|].
      exists (<[S k := prev]> (<[k := s]> sections)). split.
      * apply moveSectionUp_at; try assumption.
        intros j y Hj Hy. specialize (Hbefore j y ltac:(lia) Hy).
        apply bool_decide_eq_false in Hbefore. exact Hbefore.
      * apply insert_swap_Permutation; assumption.
Qed.

Lemma moveSectionUp_moves_witness :
  moveSectionUp "s2" [mkSection "s1" "A" "" [] true; mkSection "s2" "B" "" [] true]
  = Some <$> [mkSection "s2" "B" "" [] true; mkSection "s1" "A" "" [] true].
Proof.
  refine (proj1 (moveSectionUp_moves "s2"
                   [mkSection "s1" "A" "" [] true; mkSection "s2" "B" "" [] true])
            0%nat _ _ eq_refl eq_refl eq_refl _).
  intros [|j] y Hj; [intros [= <-]; discriminate|lia].
Defined.

Lemma NoDup_ids_first sections k s :
  NoDup (map id sections) -> sections !! k = Some s ->
  forall j y, j <> k -> sections !! j = Some y -> id y <> id s.
Proof.
  intros Hnd Hk j y Hj Hy Heq. apply Hj.
  apply (proj1 (NoDup_alt (map id sections)) Hnd j k (id s)).
  - change (map id sections) with (id <$> sections).
    rewrite list_lookup_fmap, Hy. cbn. congruence.
  - change (map id sections) with (id <$> sections).
    rewrite list_lookup_fmap, Hk. reflexivity.
Qed.

(** X29: with pairwise different ids, moving a section up and then down,
    or down and then up, restores the order of the sections. *)
Theorem moveSection_round_trip sectionId sections k s :
  NoDup (map id sections) -> sections !! k = Some s -> id s = sectionId ->
  ((0 < k)%nat ->
     exists arranged,
       moveSectionUp sectionId sections = Some <$> arranged
       /\ moveSectionDown sectionId arranged = Some <$> sections)
  /\ ((S k < length sections)%nat ->
      exists arranged,
        moveSectionDown sectionId sections = Some <$> arranged
        /\ moveSectionUp sectionId arranged = Some <$> sections).
Proof.
  intros Hnd Hk Hid.
  pose proof (NoDup_ids_first sections k s Hnd Hk) as Hother. rewrite Hid in Hother.
  split.
  - intros Hpos. destruct k as [|k]; [lia|].
    destruct (lookup_lt_is_Some_2 sections k) as [prev Hprev];
      [apply lookup_lt_Some in Hk; lia|].
    pose proof (lookup_lt_Some _ _ _ Hk) as Hlk.
    exists (<[S k := prev]> (<[k := s]> sections)). split.
    + apply moveSectionUp_at; try assumption.
      intros j y Hj Hy. apply (Hother j y); [lia|exact Hy].
    + rewrite (moveSectionDown_at sectionId _ k s prev).
      * f_equal. apply insert_swap_back; assumption.
      * rewrite list_lookup_insert_ne by lia. apply list_lookup_insert_eq. lia.
      * apply list_lookup_insert_eq. rewrite length_insert. exact Hlk.
      * exact Hid.
      * intros j y Hj. rewrite !list_lookup_insert_ne by lia.
        apply Hother. lia.
  - intros Hlast.
    destruct (lookup_lt_is_Some_2 sections (S k)) as [next Hnext]; [exact Hlast|].
    pose proof (lookup_lt_Some _ _ _ Hk) as Hlk.
    exists (<[S k := s]> (<[k := next]> sections)). split.
    + apply moveSectionDown_at; try assumption.
      intros j y Hj Hy. apply (Hother j y); [lia|exact Hy].
    + rewrite (moveSectionUp_at sectionId _ k next s).
      * f_equal. apply insert_swap_back; assumption.
      * rewrite list_lookup_insert_ne by lia. apply list_lookup_insert_eq. exact Hlk.
      * apply list_lookup_insert_eq. rewrite length_insert. exact Hlast.
      * exact Hid.
      * intros j y Hj Hy.
        destruct (decide (j = k)) as [->|Hjk].
        -- rewrite list_lookup_insert_ne in Hy by lia.
           rewrite list_lookup_insert_eq in Hy by exact Hlk. injection Hy as <-.
           apply (Hother (S k) next); [lia|exact Hnext].
        -- rewrite !list_lookup_insert_ne in Hy by lia.
           apply (Hother j y); [lia|exact Hy].
Qed.

Lemma moveSection_round_trip_witness :
  exists arranged,
    moveSectionUp "s2" [mkSection "s1" "A" "" [] true; mkSection "s2" "B" "" [] true]
    = Some <$> arranged
    /\ moveSectionDown "s2" arranged
       = Some <$> [mkSection "s1" "A" "" [] true; mkSection "s2" "B" "" [] true].
Proof.
  refine (proj1 (moveSection_round_trip "s2"
                   [mkSection "s1" "A" "" [] true; mkSection "s2" "B" "" [] true]
                   1%nat (mkSection "s2" "B" "" [] true) _ eq_refl eq_refl)
            ltac:(lia)).
  cbn. constructor; [|constructor; [|constructor]];
    rewrite ?not_elem_of_cons; try (split; [discriminate|]); apply not_elem_of_nil.
Defined.

(** X30: [moveSectionDown] does not check that the id was found. Called
    with an id that no section has, on a list that is not empty, it hands
    [setSections] an array whose first entry is [undefined]; called with
    the id of the last section, it changes nothing. *)
Theorem moveSectionDown_unknown_id sectionId sections :
  (forall x r,
     sections = x :: r -> (forall s, s ∈ sections -> id s <> sectionId) ->
     moveSectionDown sectionId sections = None :: (Some <$> r))
  /\ (forall k s,
        sections !! k = Some s -> id s = sectionId -> S k = length sections ->
        (forall j y, (j < k)%nat -> sections !! j = Some y -> id y <> sectionId) ->
        moveSectionDown sectionId sections = Some <$> sections).
Proof.
  split.
  - intros x r -> Hno. unfold moveSectionDown. rewrite findIndex_absent.
    + cbn [length]. destruct (Z.ltb_spec (-1) (Z.of_nat (S (length r)) - 1)); [|lia].
      reflexivity.
    + intros y Hy. apply bool_decide_eq_false_2, Hno, Hy.
  - intros k s Hk Hid Hlen Hbefore. unfold moveSectionDown.
    rewrite (findIndex_found _ sections k s Hk).
    + destruct (Z.ltb_spec (Z.of_nat k) (Z.of_nat (length sections) - 1)); [lia|].
      reflexivity.
    + apply bool_decide_eq_true_2, Hid.
    + intros j y Hj Hy. apply bool_decide_eq_false_2. apply (Hbefore j y); assumption.
Qed.

Lemma moveSectionDown_unknown_id_witness :
  moveSectionDown "nobody" [mkSection "s1" "A" "" [] true; mkSection "s2" "B" "" [] true]
  = [None; Some (mkSection "s2" "B" "" [] true)].
Proof.
  refine (proj1 (moveSectionDown_unknown_id "nobody"
                   [mkSection "s1" "A" "" [] true; mkSection "s2" "B" "" [] true])
            _ _ eq_refl _).
  intros s. rewrite !elem_of_cons. intros [->|[->|H]]; [discriminate..|inversion H].
Defined.
